(** * A shallow embedding of the heat-diffusion simulator in [src/pde.ts]

    Numbers of the program ([number] in TypeScript) are modelled as real
    numbers [R]; [Math.exp] is [exp] and [Math.floor] is [Int_part].
    Grid indices and pixel coordinates are natural numbers, the integer
    arguments coming from the user interface are [Z].
    A [number[][]] grid is a [list (list R)]; it is updated by index with
    stdpp's [alter] and [insert] ([heatGrid[i][j] = v] with [i], [j] in
    range, which is the only way the code writes it). *)

From Stdlib Require Import Reals Lra Lia ZArith.
From stdpp Require Import base list.

(** ** Errors and results *)

(** The three strings thrown by the code, plus the [TypeError] raised by
    [heatGrid[0].length] on a grid without rows. *)
Inductive heat_error :=
| InvalidDimensions      (* "Invalid row or column count!" *)
| GridLargerThanCanvas   (* "Grid is larger than canvas" *)
| CanvasGridMismatch     (* "Mismatch in canvas and grid sizes" *)
| EmptyGrid.             (* heatGrid[0] is undefined *)

Inductive result (A : Type) :=
| Ok (a : A)
| Err (e : heat_error).
Arguments Ok {A} a.
Arguments Err {A} e.

(** ** Grids *)

Abbreviation grid := (list (list R)).

(** [heatGrid[i][j]] when in range. *)
Definition cell (g : grid) (i j : nat) : option R :=
  g !! i ≫= fun r => r !! j.

(** A read [heatGrid[i][j]]; the code only reads in-range cells (the
    neighbour reads are guarded), so the default is never used. *)
Definition rd (g : grid) (i j : nat) : R := default 0%R (cell g i j).

(** [heatGrid[i][j] = v]. *)
Definition wr (g : grid) (i j : nat) (v : R) : grid :=
  alter (fun r => <[j := v]> r) i g.

(** [heatGrid[i][j] = f(heatGrid[i][j])], e.g. [+=]. *)
Definition upd (g : grid) (i j : nat) (f : R -> R) : grid :=
  alter (alter f j) i g.

(** A rectangular grid of [rows] rows of [cols] cells each. *)
Definition rect (rows cols : nat) (g : grid) : Prop :=
  length g = rows /\ Forall (fun r => length r = cols) g.

(** ** [heatDissipationTimeStep] *)

Section Step.
Local Open Scope R_scope.

(** The body of the inner loop, for cell [(i, j)]: it reads the grid as
    it is at that moment of the pass, and writes the cell in place. *)
Definition step_cell (gamma : R) (rows cols : nat) (heatGrid : grid)
    (i j : nat) : grid :=
  let a := if (1 <=? i)%nat then rd heatGrid (i - 1) j else 0 in
  let b := if (i + 1 <? rows)%nat then rd heatGrid (i + 1) j else 0 in
  let c := if (1 <=? j)%nat then rd heatGrid i (j - 1) else 0 in
  let d := if (j + 1 <? cols)%nat then rd heatGrid i (j + 1) else 0 in
  let e := rd heatGrid i j in
  let temp := gamma * (a + b + c + d + 4 * e) - e in
  let temp := if Rge_dec temp 0 then temp else 0 in
  wr heatGrid i j temp.

(** [for (i = 0; i < rows; i++) for (j = 0; j < cols; j++) ...] *)
Definition step_rows (gamma : R) (rows cols : nat) (heatGrid : grid) : grid :=
  fold_left (fun h i =>
    fold_left (fun h j => step_cell gamma rows cols h i j) (seq 0 cols) h)
    (seq 0 rows) heatGrid.

Definition heatDissipationTimeStep (heatGrid : grid) (gamma : R) : result grid :=
  match heatGrid with
  | [] => Err EmptyGrid
  | r0 :: _ => Ok (step_rows gamma (length heatGrid) (length r0) heatGrid)
  end.

(** The value that the claim of a snapshot (pre-step) update assigns to
    cell [(i, j)]: every neighbour is read from the grid [g] as it was
    before the step began.  This follows the specification's words, to be
    compared with [step_rows]. *)
Definition snapshot_value (gamma : R) (rows cols : nat) (g : grid)
    (i j : nat) : R :=
  let up := if (1 <=? i)%nat then rd g (i - 1) j else 0 in
  let down := if (i + 1 <? rows)%nat then rd g (i + 1) j else 0 in
  let left := if (1 <=? j)%nat then rd g i (j - 1) else 0 in
  let right := if (j + 1 <? cols)%nat then rd g i (j + 1) else 0 in
  let center := rd g i j in
  Rmax 0 (gamma * (up + down + left + right + 4 * center) - center).

(** The value the in-place row-major pass gives cell [(i, j)]: the upper
    and left neighbours are read from the grid [g'] after the pass (they
    have already been rewritten when [(i, j)] is visited), the lower and
    right neighbours and the cell itself from the grid [g] before it. *)
Definition in_place_value (gamma : R) (rows cols : nat) (g g' : grid)
    (i j : nat) : R :=
  let up := if (1 <=? i)%nat then rd g' (i - 1) j else 0 in
  let down := if (i + 1 <? rows)%nat then rd g (i + 1) j else 0 in
  let left := if (1 <=? j)%nat then rd g' i (j - 1) else 0 in
  let right := if (j + 1 <? cols)%nat then rd g i (j + 1) else 0 in
  let center := rd g i j in
  Rmax 0 (gamma * (up + down + left + right + 4 * center) - center).

End Step.

(** ** Heat injection ([setupAddHeatOnMouseClick], lines 246-266) *)

Section Inject.
Local Open Scope Z_scope.

(** One tick of the mouse-hold interval, after the pointer position has
    been mapped to [(gridX, gridY)]; [rows] and [cols] are the closure's
    variables and [heat = heatMultiplier * addedHeatOnMouseClick]. *)
Definition addHeat (rows cols : Z) (heatGrid : grid) (gridX gridY : Z)
    (heat : R) : grid :=
  let add := fun t => (t + heat)%R in
  if (0 <=? gridX) && (gridX <? cols) && (0 <=? gridY) && (gridY <? rows)
  then
    let x := Z.to_nat gridX in
    let y := Z.to_nat gridY in
    let g := upd heatGrid y x add in
    let g := if 0 <? gridX then upd g y (x - 1) add else g in
    let g := if gridX <? cols - 1 then upd g y (x + 1) add else g in
    let g := if 0 <? gridY then upd g (y - 1) x add else g in
    let g := if gridY <? rows - 1 then upd g (y + 1) x add else g in
    g
  else heatGrid.

End Inject.

(** ** Rendering ([drawHeatGrid]) *)

Section Draw.
Local Open Scope R_scope.

(** [for (k = a; k < b; k++)] *)
Definition range (a b : nat) : list nat := seq a (b - a).

(** [ctx.createImageData(width, height).data]: transparent black. *)
Definition createImageData (width height : nat) : list R :=
  replicate (width * height * 4) 0.

(** The four stores of the innermost loop body.  [imageData.data] is
    modelled as the list of the values stored into it; the out-of-range
    stores of a typed array are ignored, as stdpp's [insert] does.  The
    byte conversion of the external [ImageData] buffer is not modelled. *)
Definition set_pixel (canvasSizeX : nat) (data : list R) (x y : nat)
    (heat : R) : list R :=
  let redIndex := (y * canvasSizeX * 4 + x * 4)%nat in
  <[(redIndex + 3)%nat := 255]> (<[(redIndex + 2)%nat := 15]>
    (<[(redIndex + 1)%nat := 2 / 10 * heat]> (<[redIndex := heat]> data))).

(** The "Full cells" loops. *)
Definition draw_full (canvasSizeX scale fullCellsX fullCellsY : nat)
    (heatGrid : grid) (data : list R) : list R :=
  fold_left (fun d row =>
    fold_left (fun d col =>
      fold_left (fun d y =>
        fold_left (fun d x => set_pixel canvasSizeX d x y (rd heatGrid row col))
          (range (col * scale) ((col + 1) * scale)) d)
        (range (row * scale) ((row + 1) * scale)) d)
      (range 0 fullCellsX) d)
    (range 0 fullCellsY) data.

(** The "Remainder" loops, as written. *)
Definition draw_remainder (canvasSizeX canvasSizeY scale fullCellsX fullCellsY
    gridSizeX gridSizeY : nat) (heatGrid : grid) (data : list R) : list R :=
  fold_left (fun d row =>
    fold_left (fun d col =>
      fold_left (fun d y =>
        fold_left (fun d x => set_pixel canvasSizeX d x y (rd heatGrid row col))
          (range (col * scale) canvasSizeX) d)
        (range (row * scale) canvasSizeY) d)
      (range (fullCellsX * scale) gridSizeX) d)
    (range (fullCellsY * scale) gridSizeY) data.

(** [Math.floor(w / scale)] and [w % scale] for a positive integer
    [scale]; [totalCells] counts the partial block. *)
Definition totalCells (canvasSize scale : nat) : nat :=
  let fullCells := (canvasSize / scale)%nat in
  let remainder := (canvasSize mod scale)%nat in
  if (remainder =? 0)%nat then fullCells else (fullCells + 1)%nat.

(** [drawHeatGrid(canvas, ctx, imageData, heatGrid, scale)]: the result is
    [imageData.data] after the loops; [ctx.putImageData] hands it to the
    browser and is not modelled. *)
Definition drawHeatGrid (canvasSizeX canvasSizeY : nat) (data : list R)
    (heatGrid : grid) (scale : nat) : result (list R) :=
  match heatGrid with
  | [] => Err EmptyGrid
  | r0 :: _ =>
    let gridSizeX := length r0 in
    let gridSizeY := length heatGrid in
    if (canvasSizeX <? gridSizeX)%nat || (canvasSizeY <? gridSizeY)%nat
    then Err GridLargerThanCanvas
    else
      let fullCellsX := (canvasSizeX / scale)%nat in
      let fullCellsY := (canvasSizeY / scale)%nat in
      let totalCellsX := totalCells canvasSizeX scale in
      let totalCellsY := totalCells canvasSizeY scale in
      if negb ((totalCellsX =? gridSizeX)%nat && (totalCellsY =? gridSizeY)%nat)
      then Err CanvasGridMismatch
      else
        let data := draw_full canvasSizeX scale fullCellsX fullCellsY heatGrid data in
        Ok (draw_remainder canvasSizeX canvasSizeY scale fullCellsX fullCellsY
              gridSizeX gridSizeY heatGrid data)
  end.

(** The two errors by which the renderer refuses a grid whose geometry does
    not reconcile with the target. *)
Definition is_grid_target_mismatch (e : heat_error) : Prop :=
  e = GridLargerThanCanvas \/ e = CanvasGridMismatch.

End Draw.

(** ** Initialisation ([initializeHeatGrid]) *)

Inductive init_method := Zeros | Exp.  (* "zeros" | "exp" *)

Section Init.
Local Open Scope Z_scope.

Definition sqDist (midX midY : Z) (i j : nat) : Z :=
  (Z.of_nat i - midY) ^ 2 + (Z.of_nat j - midX) ^ 2.

Definition initializeHeatGrid (rows cols : Z) (method : init_method)
    (beta alpha : R) : result grid :=
  if (rows <=? 0) || (rows >? 1080) || (cols <=? 0) || (cols >? 1920)
  then Err InvalidDimensions
  else
    (* the zero-filling loops *)
    let heatGrid := replicate (Z.to_nat rows) (replicate (Z.to_nat cols) 0%R) in
    match method with
    | Zeros => Ok heatGrid
    | Exp =>
      let midX := cols / 2 in
      let midY := rows / 2 in
      Ok (fold_left (fun h i =>
            fold_left (fun h j =>
              wr h i j (alpha * exp (- beta * IZR (sqDist midX midY i j))))
              (seq 0 (Z.to_nat cols)) h)
            (seq 0 (Z.to_nat rows)) heatGrid)
    end.

(** The default arguments [beta=0.0001, alpha=255]. *)
Definition initializeHeatGrid_default (rows cols : Z) (method : init_method)
    : result grid :=
  initializeHeatGrid rows cols method (1 / 10000) 255.

(** The same initialisation with the floating-point evaluation of line 26,
    [alpha * Math.exp(-beta * sqDist)], made explicit: [fl] rounds the
    result of an arithmetic operation to a double and [math_exp] is
    [Math.exp].  The negation and the small integer [sqDist] are exact;
    the two products are rounded. *)
Definition initializeHeatGrid_f64 (fl math_exp : R -> R) (rows cols : Z)
    (method : init_method) (beta alpha : R) : result grid :=
  if (rows <=? 0) || (rows >? 1080) || (cols <=? 0) || (cols >? 1920)
  then Err InvalidDimensions
  else
    let heatGrid := replicate (Z.to_nat rows) (replicate (Z.to_nat cols) 0%R) in
    match method with
    | Zeros => Ok heatGrid
    | Exp =>
      let midX := cols / 2 in
      let midY := rows / 2 in
      Ok (fold_left (fun h i =>
            fold_left (fun h j =>
              wr h i j (fl (alpha * math_exp (fl (- beta * IZR (sqDist midX midY i j))%R))%R))
              (seq 0 (Z.to_nat cols)) h)
            (seq 0 (Z.to_nat rows)) heatGrid)
    end.

End Init.

(** [Math.exp] as fdlibm's [e_exp.c] (the code behind V8's and
    SpiderMonkey's [Math.exp]) computes it: below the underflow threshold
    [u_threshold = -7.45133219101941108420e+02] the result is [+0]; at or
    above it the model takes the exact exponential, which the library
    returns to within one ulp.  The overflow to [+Infinity] above
    [709.78] is not modelled: [initializeHeatGrid] calls [Math.exp] only
    at arguments [<= 0] when [beta >= 0]. *)
Definition u_threshold : R := (- (745133219101941108420 / 10 ^ 18))%R.

Definition Math_exp (x : R) : R :=
  if Rlt_dec x u_threshold then 0%R else exp x.

(** ** Pointer position to grid cell ([canvasXYToGridXY]) *)

Definition canvasXYToGridXY (canvasX canvasY scale : R) : Z * Z :=
  (Int_part ((canvasX - 1) / scale), Int_part ((canvasY - 1) / scale)).

(** ** The main closure *)

(** [addedHeatOnMouseClick] (line 189). *)
Definition addedHeatOnMouseClick : R := 8.

(** One tick of the mouse-hold interval while the button is held
    (lines 244-266): the pointer position [(x, y)] returned by
    [getMousePosition] is mapped to a cell by [canvasXYToGridXY], and
    [heatMultiplier * addedHeatOnMouseClick] is injected there. *)
Definition mouseTick (rows cols : Z) (scale heatMultiplier : R) (heatGrid : grid)
    (x y : R) : grid :=
  let '(gridX, gridY) := canvasXYToGridXY x y scale in
  let heat := (heatMultiplier * addedHeatOnMouseClick)%R in
  addHeat rows cols heatGrid gridX gridY heat.

(** [scaleInputToScale] (line 167); a missing key gives [undefined]. *)
Definition scaleInputToScale (k : Z) : option nat :=
  match k with
  | 1 => Some 10%nat | 2 => Some 8%nat | 3 => Some 5%nat
  | 4 => Some 4%nat | 5 => Some 2%nat | 6 => Some 1%nat
  | _ => None
  end%Z.

(** The grid built at start-up and by the reset handler (lines 178-183 and
    211-215), for a canvas of [width x height] pixels: [rows] and [cols]
    are [Math.floor(canvas.height/scale)] and
    [Math.floor(canvas.width/scale)]. *)
Definition setupGrid (width height scale : nat) (beta : Z) : result grid :=
  let betaScaled := (IZR beta / 100000 * INR scale ^ 2)%R in
  let rows := Z.of_nat (height / scale) in
  let cols := Z.of_nat (width / scale) in
  initializeHeatGrid rows cols Exp betaScaled 255.

(** One frame of [animate] (lines 200-204): render, then one step; an
    exception of either call ends the animation (the next frame is never
    scheduled).  The result is the image buffer and the new grid. *)
Definition animate (width height scale : nat) (gamma : R) (data : list R)
    (heatGrid : grid) : result (list R * grid) :=
  match drawHeatGrid width height data heatGrid scale with
  | Err e => Err e
  | Ok data' =>
    match heatDissipationTimeStep heatGrid gamma with
    | Err e => Err e
    | Ok g' => Ok (data', g')
    end
  end.

(** *** The mouse-hold interval ([setupAddHeatOnMouseClick], lines 230-286)

    The closure's variables [holding] and [intervalID], and the browser's
    registry of active intervals: [timers] holds the ids of the intervals
    not yet cleared, [nextTimer] the id the next [setInterval] returns. *)
Record mouse_state := MouseState {
  holding : bool;
  intervalID : option nat;  (* [undefined] before the first [interval()] *)
  timers : list nat;
  nextTimer : nat
}.

Definition mouse_init : mouse_state := MouseState false None [] 0.

(** The events: the three listeners that call [interval()], and a firing
    of the active interval with the given id ([mousemove] only records the
    pointer and is left out). *)
Inductive mouse_event :=
| MouseDown | MouseUp | MouseLeave | Fire (id : nat).

Definition set_holding (b : bool) (s : mouse_state) : mouse_state :=
  MouseState b (intervalID s) (timers s) (nextTimer s).

(** [intervalID = setInterval(...)] *)
Definition interval (s : mouse_state) : mouse_state :=
  MouseState (holding s) (Some (nextTimer s)) (nextTimer s :: timers s)
    (S (nextTimer s)).

(** [clearInterval(intervalID)]; clearing [undefined] does nothing. *)
Definition clearInterval (id : option nat) (ts : list nat) : list nat :=
  match id with
  | None => ts
  | Some k => List.filter (fun t => negb (t =? k)%nat) ts
  end.

(** One event; the boolean tells whether the interval callback took its
    [else] branch, i.e. injected heat ([mouseTick]).  An interval that has
    been cleared never fires. *)
Definition mouse_step (s : mouse_state) (ev : mouse_event) : mouse_state * bool :=
  match ev with
  | MouseDown => (interval (set_holding true s), false)
  | MouseUp | MouseLeave => (interval (set_holding false s), false)
  | Fire k =>
    if existsb (Nat.eqb k) (timers s) then
      if holding s then (s, true)
      else (MouseState (holding s) (intervalID s)
              (clearInterval (intervalID s) (timers s)) (nextTimer s), false)
    else (s, false)
  end.

Definition mouse_run (s : mouse_state) (evs : list mouse_event) : mouse_state :=
  fold_left (fun s ev => fst (mouse_step s ev)) evs s.

(** ** Reading and writing cells *)

Section Cells.

Lemma cell_wr_eq (g : grid) i j v :
  is_Some (cell g i j) -> cell (wr g i j v) i j = Some v.
Proof.
  unfold cell, wr. rewrite list_lookup_alter_eq.
  destruct (g !! i) as [r|]; simpl; intros [x Hx]; [|discriminate].
  apply list_lookup_insert_eq. eapply lookup_lt_Some; eauto.
Qed.

Lemma cell_wr_ne (g : grid) i j i' j' v :
  (i, j) <> (i', j') -> cell (wr g i j v) i' j' = cell g i' j'.
Proof.
  intros Hne. unfold cell, wr. destruct (decide (i = i')) as [<-|Hi].
  - rewrite list_lookup_alter_eq. destruct (g !! i) as [r|]; simpl; [|done].
    apply list_lookup_insert_ne. congruence.
  - by rewrite list_lookup_alter_ne.
Qed.

Lemma cell_upd_eq (g : grid) i j f :
  cell (upd g i j f) i j = f <$> cell g i j.
Proof.
  unfold cell, upd. rewrite list_lookup_alter_eq.
  destruct (g !! i) as [r|]; simpl; [|done]. apply list_lookup_alter_eq.
Qed.

Lemma cell_upd_ne (g : grid) i j i' j' f :
  (i, j) <> (i', j') -> cell (upd g i j f) i' j' = cell g i' j'.
Proof.
  intros Hne. unfold cell, upd. destruct (decide (i = i')) as [<-|Hi].
  - rewrite list_lookup_alter_eq. destruct (g !! i) as [r|]; simpl; [|done].
    apply list_lookup_alter_ne. congruence.
  - by rewrite list_lookup_alter_ne.
Qed.

Lemma rect_lookup rows cols (g : grid) :
  rect rows cols g <->
  length g = rows /\ forall i r, g !! i = Some r -> length r = cols.
Proof. unfold rect. by rewrite Forall_lookup. Qed.

Lemma rect_wr rows cols (g : grid) i j v :
  rect rows cols g -> rect rows cols (wr g i j v).
Proof.
  rewrite !rect_lookup. intros [Hl Hr]. unfold wr. rewrite length_alter.
  split; [done|]. intros i' r'. rewrite list_lookup_alter.
  case_decide as Hii; [subst i'|].
  - destruct (g !! i) as [r|] eqn:E; simpl; [|discriminate].
    intros [= <-]. rewrite length_insert. eauto.
  - eauto.
Qed.

Lemma rect_upd rows cols (g : grid) i j f :
  rect rows cols g -> rect rows cols (upd g i j f).
Proof.
  rewrite !rect_lookup. intros [Hl Hr]. unfold upd. rewrite length_alter.
  split; [done|]. intros i' r'. rewrite list_lookup_alter.
  case_decide as Hii; [subst i'|].
  - destruct (g !! i) as [r|] eqn:E; simpl; [|discriminate].
    intros [= <-]. rewrite length_alter. eauto.
  - eauto.
Qed.

Lemma rect_cell rows cols (g : grid) i j :
  rect rows cols g -> i < rows -> j < cols -> is_Some (cell g i j).
Proof.
  rewrite rect_lookup. intros [Hl Hr] Hi Hj. unfold cell.
  destruct (lookup_lt_is_Some_2 g i) as [r Hr']; [lia|].
  rewrite Hr'; simpl. apply lookup_lt_is_Some_2. erewrite Hr; eauto.
Qed.

Lemma rect_cell_None rows cols (g : grid) i j :
  rect rows cols g -> (rows <= i \/ cols <= j) -> cell g i j = None.
Proof.
  rewrite rect_lookup. intros [Hl Hr] Hij. unfold cell.
  destruct (g !! i) as [r|] eqn:E; simpl; [|done].
  apply lookup_lt_Some in E as Hi. apply Hr in E.
  apply lookup_ge_None_2. lia.
Qed.

Lemma rd_wr_eq (g : grid) i j v :
  is_Some (cell g i j) -> rd (wr g i j v) i j = v.
Proof. intros H. unfold rd. by rewrite cell_wr_eq. Qed.

Lemma rd_wr_ne (g : grid) i j i' j' v :
  (i, j) <> (i', j') -> rd (wr g i j v) i' j' = rd g i' j'.
Proof. intros H. unfold rd. by rewrite cell_wr_ne. Qed.

(** Two grids of one shape that agree on every in-range cell are equal. *)
Lemma grid_eq_cells rows cols (g h : grid) :
  rect rows cols g -> rect rows cols h ->
  (forall i j, i < rows -> j < cols -> cell g i j = cell h i j) -> g = h.
Proof.
  rewrite !rect_lookup. intros [Hgl Hgr] [Hhl Hhr] Hc.
  apply list_eq. intros i.
  destruct (g !! i) as [r|] eqn:Eg, (h !! i) as [s|] eqn:Eh.
  - f_equal. apply list_eq. intros j.
    pose proof (lookup_lt_Some _ _ _ Eg).
    destruct (decide (j < cols)).
    + specialize (Hc i j ltac:(lia) ltac:(lia)). unfold cell in Hc.
      by rewrite Eg, Eh in Hc.
    + rewrite (lookup_ge_None_2 r), (lookup_ge_None_2 s); [done| |].
      * rewrite (Hhr i s Eh). lia.
      * rewrite (Hgr i r Eg). lia.
  - apply lookup_lt_Some in Eg. apply lookup_ge_None_1 in Eh. lia.
  - apply lookup_lt_Some in Eh. apply lookup_ge_None_1 in Eg. lia.
  - done.
Qed.

End Cells.

(** ** The in-place pass of [heatDissipationTimeStep] *)

Section StepPass.
Local Open Scope R_scope.

Variables (gamma : R) (rows cols : nat) (g : grid).
Hypothesis Hg : rect rows cols g.

(** Cell [(i, j)] comes before [(i0, j0)] in the row-major order of the
    pass. *)
Definition before (i j i0 j0 : nat) : Prop :=
  (i < i0 \/ (i = i0 /\ j < j0))%nat.

(** The state of the pass when it is about to visit [(i0, j0)]: the cells
    already visited hold their [in_place_value] with respect to the current
    grid, the others are untouched. *)
Definition pass_inv (h : grid) (i0 j0 : nat) : Prop :=
  rect rows cols h /\
  (forall i j, (i < rows)%nat -> (j < cols)%nat -> before i j i0 j0 ->
     rd h i j = in_place_value gamma rows cols g h i j) /\
  (forall i j, (i0 < i \/ (i = i0 /\ j0 <= j))%nat -> cell h i j = cell g i j).

Lemma in_place_value_wr h i j i0 j0 v :
  before i j i0 j0 ->
  in_place_value gamma rows cols g (wr h i0 j0 v) i j =
  in_place_value gamma rows cols g h i j.
Proof.
  intros Hb. unfold in_place_value, before in *.
  rewrite (rd_wr_ne h i0 j0 (i - 1) j), (rd_wr_ne h i0 j0 i (j - 1));
    [reflexivity| |]; intros [= Ei Ej]; lia.
Qed.

Lemma pass_inv_step h i0 j0 :
  (i0 < rows)%nat -> (j0 < cols)%nat -> pass_inv h i0 j0 ->
  pass_inv (step_cell gamma rows cols h i0 j0) i0 (S j0).
Proof.
  intros Hi0 Hj0 (Hr & Hdone & Hnew).
  assert (Hrd : forall i j, (i0 < i \/ (i = i0 /\ j0 <= j))%nat ->
                rd h i j = rd g i j).
  { intros i j H. unfold rd. by rewrite Hnew. }
  unfold step_cell. set (v := if Rge_dec _ _ then _ else _).
  split; [|split].
  - by apply rect_wr.
  - intros i j Hi Hj Hb.
    destruct (decide ((i, j) = (i0, j0))) as [[= -> ->]|Hne].
    + rewrite rd_wr_eq by (apply (rect_cell rows cols); auto).
      unfold in_place_value. subst v.
      destruct (1 <=? i0)%nat eqn:Ea;
        [apply Nat.leb_le in Ea; rewrite (rd_wr_ne h i0 j0 (i0 - 1))
           by (intros [=]; lia)|];
      destruct (1 <=? j0)%nat eqn:Ec;
        try (apply Nat.leb_le in Ec; rewrite (rd_wr_ne h i0 j0 i0 (j0 - 1))
           by (intros [=]; lia));
      rewrite (Hrd i0 j0), (Hrd i0 (j0 + 1)%nat) by lia;
      destruct (i0 + 1 <? rows)%nat eqn:Eb;
        try rewrite (Hrd (i0 + 1)%nat j0) by lia;
      unfold Rmax; destruct Rge_dec, Rle_dec; lra.
    + rewrite rd_wr_ne by congruence.
      assert (before i j i0 j0).
      { unfold before in *. destruct Hb as [?|[-> ?]]; [lia|].
        assert (j <> j0) by congruence. lia. }
      rewrite in_place_value_wr by done. auto.
  - intros i j H. rewrite cell_wr_ne by (intros [= <- <-]; lia).
    apply Hnew. lia.
Qed.

Lemma pass_inv_row h i0 j0 n :
  (i0 < rows)%nat -> (j0 + n = cols)%nat -> pass_inv h i0 j0 ->
  pass_inv (fold_left (fun h j => step_cell gamma rows cols h i0 j)
              (seq j0 n) h) i0 cols.
Proof.
  revert h j0. induction n as [|n IH]; intros h j0 Hi Hn Hinv; simpl.
  - by rewrite <- Hn, Nat.add_0_r.
  - apply IH; [done|lia|]. apply pass_inv_step; [done|lia|done].
Qed.

Lemma pass_inv_next_row h i0 :
  pass_inv h i0 cols -> pass_inv h (S i0) 0.
Proof.
  intros (Hr & Hdone & Hnew). split; [done|split].
  - intros i j Hi Hj Hb. apply Hdone; [done|done|].
    unfold before in *. lia.
  - intros i j H. apply Hnew. lia.
Qed.

Lemma pass_inv_rows h i0 n :
  (i0 + n = rows)%nat -> pass_inv h i0 0 ->
  pass_inv (fold_left (fun h i =>
      fold_left (fun h j => step_cell gamma rows cols h i j) (seq 0 cols) h)
      (seq i0 n) h) rows 0.
Proof.
  revert h i0. induction n as [|n IH]; intros h i0 Hn Hinv; simpl.
  - by rewrite <- Hn, Nat.add_0_r.
  - apply IH; [lia|]. apply pass_inv_next_row.
    apply pass_inv_row; [lia|lia|done].
Qed.

Lemma step_rows_spec :
  rect rows cols (step_rows gamma rows cols g) /\
  forall i j, (i < rows)%nat -> (j < cols)%nat ->
    rd (step_rows gamma rows cols g) i j =
    in_place_value gamma rows cols g (step_rows gamma rows cols g) i j.
Proof.
  destruct (pass_inv_rows g 0 rows) as (Hr & Hdone & _); [done| |].
  - split; [done|split; [|done]]. intros i j _ _ Hb. unfold before in Hb. lia.
  - split; [done|]. intros i j Hi Hj. apply Hdone; [done|done|].
    unfold before. lia.
Qed.

End StepPass.

Section StepFacts.
Local Open Scope R_scope.

Lemma fold_left_fixed {A B} (f : A -> B -> A) (l : list B) (a : A) :
  (forall b, f a b = a) -> fold_left f l a = a.
Proof. intros Hf. induction l as [|b l IH]; simpl; [done|]. by rewrite Hf. Qed.

(** A step of a rectangular grid with at least one row succeeds; the grid
    keeps its shape and each cell holds its [in_place_value]. *)
Lemma step_spec (g : grid) rows cols gamma :
  rect rows cols g -> (1 <= rows)%nat ->
  exists g', heatDissipationTimeStep g gamma = Ok g' /\ rect rows cols g' /\
    forall i j, (i < rows)%nat -> (j < cols)%nat ->
      rd g' i j = in_place_value gamma rows cols g g' i j.
Proof.
  intros Hr Hrows. destruct g as [|r0 g0].
  - destruct Hr as [Hl _]. simpl in Hl. lia.
  - assert (Hc : length r0 = cols).
    { destruct Hr as [_ Hf]. by inversion Hf. }
    assert (Hl : length (r0 :: g0) = rows) by apply Hr.
    exists (step_rows gamma rows cols (r0 :: g0)). split.
    + cbn [heatDissipationTimeStep]. by rewrite Hl, Hc.
    + by apply step_rows_spec.
Qed.

Lemma cell_zero (g : grid) i j x :
  Forall (Forall (fun x => x = 0)) g -> cell g i j = Some x -> x = 0.
Proof.
  unfold cell. intros Hz H.
  destruct (g !! i) as [r|] eqn:E; simpl in H; [|discriminate].
  rewrite Forall_lookup in Hz. specialize (Hz _ _ E).
  rewrite Forall_lookup in Hz. eauto.
Qed.

Lemma rd_zero (g : grid) i j :
  Forall (Forall (fun x => x = 0)) g -> rd g i j = 0.
Proof.
  intros Hz. unfold rd. destruct (cell g i j) eqn:E; simpl; [|done].
  eapply cell_zero; eauto.
Qed.

Lemma step_cell_zero (g : grid) rows cols gamma i j :
  rect rows cols g -> Forall (Forall (fun x => x = 0)) g ->
  step_cell gamma rows cols g i j = g.
Proof.
  intros Hr Hz. unfold step_cell. rewrite !rd_zero by done.
  assert (Hif : forall b : bool, (if b then 0 else 0) = 0) by (intros []; done).
  rewrite !Hif.
  replace (gamma * (0 + 0 + 0 + 0 + 4 * 0) - 0) with 0 by ring.
  destruct (Rge_dec 0 0) as [_|]; [|lra].
  apply (grid_eq_cells rows cols); [by apply rect_wr|done|].
  intros i' j' Hi' Hj'.
  destruct (decide ((i, j) = (i', j'))) as [[= <- <-]|Hne].
  - destruct (rect_cell rows cols g i j Hr Hi' Hj') as [x Hx].
    rewrite cell_wr_eq by (rewrite Hx; eauto).
    rewrite Hx. f_equal. symmetry. eapply cell_zero; eauto.
  - by apply cell_wr_ne.
Qed.

End StepFacts.

(** ** Heat injection *)

Section InjectFacts.

Lemma cell_upd (g : grid) i j i' j' f :
  cell (upd g i j f) i' j' =
  if decide (i = i' /\ j = j') then f <$> cell g i' j' else cell g i' j'.
Proof.
  case_decide as Hij.
  - destruct Hij as [-> ->]. apply cell_upd_eq.
  - apply cell_upd_ne. intros [= -> ->]. tauto.
Qed.

Lemma if_decide_iff {A} (P Q : Prop) `{Decision P, Decision Q} (a b : A) :
  (P <-> Q) -> (if decide P then a else b) = (if decide Q then a else b).
Proof. intros HPQ. do 2 case_decide; tauto. Qed.

(** Within the grid, a click at [(gridX, gridY)] adds [heat] to exactly the
    cells at Manhattan distance at most 1 from it. *)
Lemma addHeat_spec (rows cols : Z) (g : grid) gridX gridY heat :
  rect (Z.to_nat rows) (Z.to_nat cols) g ->
  (0 <= gridX < cols)%Z -> (0 <= gridY < rows)%Z ->
  forall i j, cell (addHeat rows cols g gridX gridY heat) i j =
    if decide (Z.abs (Z.of_nat i - gridY) + Z.abs (Z.of_nat j - gridX) <= 1)%Z
    then (fun t => (t + heat)%R) <$> cell g i j else cell g i j.
Proof.
  intros Hr Hx Hy i j. unfold addHeat.
  replace ((0 <=? gridX)%Z && (gridX <? cols)%Z && (0 <=? gridY)%Z
           && (gridY <? rows)%Z) with true
    by (symmetry; repeat rewrite andb_true_iff; rewrite Z.leb_le, !Z.ltb_lt,
        Z.leb_le; lia).
  destruct (0 <? gridX)%Z eqn:E1, (gridX <? cols - 1)%Z eqn:E2,
    (0 <? gridY)%Z eqn:E3, (gridY <? rows - 1)%Z eqn:E4;
    rewrite ?Z.ltb_lt, ?Z.ltb_ge in E1, E2, E3, E4;
    rewrite ?cell_upd; repeat case_decide; simplify_eq/=;
    rewrite ?option_fmap_compose; try lia; try reflexivity;
    rewrite (rect_cell_None _ _ g i j Hr) by lia; reflexivity.
Qed.

End InjectFacts.

(** ** Rendering: the geometry checks *)

Section DrawFacts.

Lemma totalCells_alt (w scale : nat) :
  totalCells w scale = (w / scale + (if w mod scale =? 0 then 0 else 1))%nat.
Proof. unfold totalCells. destruct (w mod scale =? 0); lia. Qed.

(** With a positive scale, the blocks never outnumber the pixels. *)
Lemma totalCells_le (w scale : nat) :
  (1 <= scale)%nat -> (totalCells w scale <= w)%nat.
Proof.
  intros Hs. unfold totalCells.
  pose proof (Nat.div_mod w scale ltac:(lia)) as Hdm.
  pose proof (Nat.mod_upper_bound w scale ltac:(lia)) as Hub.
  destruct (Nat.eqb_spec (w mod scale) 0) as [E|E]; nia.
Qed.

(** [drawHeatGrid] fails exactly when a block count differs from the grid
    size, and then only with one of the two geometry errors. *)
Lemma drawHeatGrid_fails (W H scale : nat) (data : list R) (g : grid) :
  (1 <= scale)%nat -> g <> [] ->
  ((exists e, drawHeatGrid W H data g scale = Err e) <->
   (totalCells W scale <> length (hd [] g) \/ totalCells H scale <> length g)) /\
  (forall e, drawHeatGrid W H data g scale = Err e -> is_grid_target_mismatch e).
Proof.
  intros Hs Hg. destruct g as [|r0 g0]; [done|]. cbn [drawHeatGrid hd].
  pose proof (totalCells_le W scale Hs). pose proof (totalCells_le H scale Hs).
  destruct ((W <? length r0)%nat || (H <? length (r0 :: g0))%nat) eqn:E1.
  - apply orb_true_iff in E1. rewrite !Nat.ltb_lt in E1.
    split; [split; [intros _; lia|eauto]|].
    intros e [= <-]. by left.
  - destruct (negb ((totalCells W scale =? length r0)%nat &&
                    (totalCells H scale =? length (r0 :: g0))%nat)) eqn:E2.
    + apply negb_true_iff, andb_false_iff in E2. rewrite !Nat.eqb_neq in E2.
      split; [split; [intros _; lia|eauto]|].
      intros e [= <-]. by right.
    + apply negb_false_iff, andb_true_iff in E2. rewrite !Nat.eqb_eq in E2.
      split; [split; [intros [e He]; discriminate|lia]|].
      intros e He; discriminate.
Qed.

End DrawFacts.

(** ** Initialisation: the filling loops *)

Section InitFacts.

Variables (rows cols : nat).

Lemma fill_row (f : nat -> nat -> R) (h : grid) i a n :
  rect rows cols h -> (i < rows)%nat -> (a + n <= cols)%nat ->
  rect rows cols (fold_left (fun h j => wr h i j (f i j)) (seq a n) h) /\
  forall i' j', cell (fold_left (fun h j => wr h i j (f i j)) (seq a n) h) i' j' =
    if decide (i' = i /\ a <= j' < a + n)%nat then Some (f i j') else cell h i' j'.
Proof.
  revert h a. induction n as [|n IH]; intros h a Hr Hi Han; simpl.
  - split; [done|]. intros i' j'. case_decide; [lia|done].
  - destruct (IH (wr h i a (f i a)) (S a)) as [Hr' Hc];
      [by apply rect_wr|done|lia|].
    split; [done|]. intros i' j'. rewrite Hc.
    destruct (decide ((i, a) = (i', j'))) as [[= <- <-]|Hne].
    + rewrite cell_wr_eq by (apply (rect_cell rows cols); auto with lia).
      by do 2 (case_decide; try lia).
    + rewrite cell_wr_ne by done.
      do 2 case_decide; try done; exfalso; try lia.
      apply Hne. f_equal; lia.
Qed.

Lemma fill_rows (f : nat -> nat -> R) (h : grid) b m :
  rect rows cols h -> (b + m <= rows)%nat ->
  let h' := fold_left (fun h i =>
              fold_left (fun h j => wr h i j (f i j)) (seq 0 cols) h)
              (seq b m) h in
  rect rows cols h' /\
  forall i' j', cell h' i' j' =
    if decide (b <= i' < b + m /\ j' < cols)%nat then Some (f i' j')
    else cell h i' j'.
Proof.
  revert h b. induction m as [|m IH]; intros h b Hr Hbm; simpl.
  - split; [done|]. intros i' j'. case_decide; [lia|done].
  - destruct (fill_row f h b 0 cols) as [Hr1 Hc1]; [done|lia|lia|].
    destruct (IH _ (S b) Hr1) as [Hr' Hc]; [lia|].
    split; [done|]. intros i' j'. rewrite Hc, Hc1.
    repeat case_decide; try lia; try done.
    all: match goal with H : (_ = _ /\ _)%nat |- _ => destruct H as [-> _] end; done.
Qed.

End InitFacts.

Section InitCells.
Local Open Scope R_scope.

(** The Gaussian bump written by the [exp] mode. *)
Lemma initializeHeatGrid_exp_cells (rows cols : Z) (beta alpha : R) :
  (1 <= rows <= 1080)%Z -> (1 <= cols <= 1920)%Z ->
  exists g, initializeHeatGrid rows cols Exp beta alpha = Ok g /\
    rect (Z.to_nat rows) (Z.to_nat cols) g /\
    forall i j, cell g i j =
      if decide (i < Z.to_nat rows /\ j < Z.to_nat cols)%nat
      then Some (alpha * exp (- beta * IZR (sqDist (cols / 2) (rows / 2) i j)))
      else None.
Proof.
  intros Hr Hc. unfold initializeHeatGrid.
  replace ((rows <=? 0)%Z || (rows >? 1080)%Z || (cols <=? 0)%Z || (cols >? 1920)%Z)
    with false by (symmetry; rewrite !orb_false_iff, Z.leb_gt, Z.gtb_ltb,
                   Z.ltb_ge, Z.leb_gt, Z.gtb_ltb, Z.ltb_ge; lia).
  set (h0 := replicate _ _).
  assert (Hr0 : rect (Z.to_nat rows) (Z.to_nat cols) h0).
  { split; [apply length_replicate|]. apply Forall_replicate, length_replicate. }
  destruct (fill_rows (Z.to_nat rows) (Z.to_nat cols)
    (fun i j => alpha * exp (- beta * IZR (sqDist (cols / 2) (rows / 2) i j)))
    h0 0 (Z.to_nat rows) Hr0 ltac:(lia)) as [Hr' Hc'].
  eexists. split; [reflexivity|]. split; [exact Hr'|].
  intros i j. rewrite Hc'.
  do 2 case_decide; try lia; [done|].
  apply (rect_cell_None (Z.to_nat rows) (Z.to_nat cols)); [done|lia].
Qed.

Lemma exp_le_mono x y : x <= y -> exp x <= exp y.
Proof.
  intros [Hlt|<-]; [left; by apply exp_increasing|right; reflexivity].
Qed.

(** The same cells in double precision. *)
Lemma initializeHeatGrid_f64_cells (fl math_exp : R -> R) (rows cols : Z) (beta alpha : R) :
  (1 <= rows <= 1080)%Z -> (1 <= cols <= 1920)%Z ->
  exists g, initializeHeatGrid_f64 fl math_exp rows cols Exp beta alpha = Ok g /\
    rect (Z.to_nat rows) (Z.to_nat cols) g /\
    forall i j, cell g i j =
      if decide (i < Z.to_nat rows /\ j < Z.to_nat cols)%nat
      then Some (fl (alpha * math_exp (fl (- beta * IZR (sqDist (cols / 2) (rows / 2) i j)))))
      else None.
Proof.
  intros Hr Hc. unfold initializeHeatGrid_f64.
  replace ((rows <=? 0)%Z || (rows >? 1080)%Z || (cols <=? 0)%Z || (cols >? 1920)%Z)
    with false by (symmetry; rewrite !orb_false_iff, Z.leb_gt, Z.gtb_ltb,
                   Z.ltb_ge, Z.leb_gt, Z.gtb_ltb, Z.ltb_ge; lia).
  set (h0 := replicate _ _).
  assert (Hr0 : rect (Z.to_nat rows) (Z.to_nat cols) h0).
  { split; [apply length_replicate|]. apply Forall_replicate, length_replicate. }
  destruct (fill_rows (Z.to_nat rows) (Z.to_nat cols)
    (fun i j => fl (alpha * math_exp (fl (- beta * IZR (sqDist (cols / 2) (rows / 2) i j)))))
    h0 0 (Z.to_nat rows) Hr0 ltac:(lia)) as [Hr' Hc'].
  eexists. split; [reflexivity|]. split; [exact Hr'|].
  intros i j. rewrite Hc'.
  do 2 case_decide; try lia; [done|].
  apply (rect_cell_None (Z.to_nat rows) (Z.to_nat cols)); [done|lia].
Qed.

End InitCells.

(** * The claims *)

Section Claims.
Local Open Scope R_scope.

(** ** Diffusion step *)

(** C1 (corrected).  The pass updates the grid in place in row-major
    order, so a cell does not see only pre-step values: for every
    rectangular grid with at least one row and every [gamma], the step
    succeeds, keeps the shape, and sets each cell [(i, j)] to
    [max(0, gamma*(up + down + left + right + 4*center) - center)] where
    [up] and [left] are the values those neighbours received earlier in
    the same pass, while [down], [right] and [center] are pre-step values
    (out-of-bounds neighbours are 0). *)
Theorem heatDissipationTimeStep_in_place (g : grid) (rows cols : nat) (gamma : R)
    (Hr : rect rows cols g) (Hrows : (1 <= rows)%nat) :
  exists g', heatDissipationTimeStep g gamma = Ok g' /\ rect rows cols g' /\
    forall i j, (i < rows)%nat -> (j < cols)%nat ->
      rd g' i j = in_place_value gamma rows cols g g' i j.
Proof. by apply step_spec. Qed.

Lemma heatDissipationTimeStep_in_place_witness :
  rect 1 2 [[1; 0]] /\ (1 <= 1)%nat /\
  exists g', heatDissipationTimeStep [[1; 0]] 1 = Ok g' /\ rect 1 2 g' /\
    forall i j, (i < 1)%nat -> (j < 2)%nat ->
      rd g' i j = in_place_value 1 1 2 [[1; 0]] g' i j.
Proof.
  assert (Hr : rect 1 2 [[1; 0]]) by (split; [reflexivity|repeat constructor]).
  assert (H1 : (1 <= 1)%nat) by lia.
  exact (conj Hr (conj H1 (heatDissipationTimeStep_in_place [[1; 0]] 1 2 1 Hr H1))).
Defined.

(** C1, counterexample: on the 1x2 grid [[1; 0]] with [gamma = 1] the
    second cell becomes 3, because it reads its left neighbour after that
    neighbour was updated to 3; from pre-step values it would be 1. *)
Lemma heatDissipationTimeStep_not_snapshot :
  ~ (forall (g g' : grid) gamma, heatDissipationTimeStep g gamma = Ok g' ->
       forall i j, (i < length g)%nat -> (j < length (hd [] g))%nat ->
         rd g' i j = snapshot_value gamma (length g) (length (hd [] g)) g i j).
Proof.
  intros H.
  assert (Hr : rect 1 2 [[1; 0]]) by (split; [reflexivity|repeat constructor]).
  destruct (step_spec [[1; 0]] 1 2 1 Hr ltac:(lia)) as (g' & E & _ & Hv).
  specialize (H _ _ _ E 0%nat 1%nat ltac:(simpl; lia) ltac:(simpl; lia)).
  pose proof (Hv 0%nat 0%nat ltac:(lia) ltac:(lia)) as H00.
  pose proof (Hv 0%nat 1%nat ltac:(lia) ltac:(lia)) as H01.
  unfold in_place_value, snapshot_value in *. simpl in H, H00, H01.
  assert (E00 : rd [[1; 0]] 0 0 = 1) by reflexivity.
  assert (E01 : rd [[1; 0]] 0 1 = 0) by reflexivity.
  rewrite E00, E01 in *. rewrite H01, H00 in H. unfold Rmax in H.
  repeat destruct Rle_dec in H; lra.
Qed.

(** C4.  For every rectangular grid with at least one row and every
    [gamma], every cell after one step is [>= 0], whatever the sign of the
    stencil expression. *)
Theorem heatDissipationTimeStep_nonneg (g : grid) (rows cols : nat) (gamma : R)
    (Hr : rect rows cols g) (Hrows : (1 <= rows)%nat) :
  exists g', heatDissipationTimeStep g gamma = Ok g' /\
    forall i j x, cell g' i j = Some x -> 0 <= x.
Proof.
  destruct (step_spec g rows cols gamma Hr Hrows) as (g' & E & Hr' & Hv).
  exists g'. split; [done|]. intros i j x Hx.
  destruct (decide (i < rows /\ j < cols)%nat) as [[Hi Hj]|Hout].
  2:{ rewrite (rect_cell_None rows cols g' i j Hr') in Hx by lia. discriminate. }
  assert (Hrd : rd g' i j = x) by (unfold rd; by rewrite Hx).
  rewrite <- Hrd, Hv by done. unfold in_place_value. apply Rmax_l.
Qed.

Lemma heatDissipationTimeStep_nonneg_witness :
  rect 1 3 [[-5; 1; 2]] /\ (1 <= 1)%nat /\
  exists g', heatDissipationTimeStep [[-5; 1; 2]] (1 / 10) = Ok g' /\
    forall i j x, cell g' i j = Some x -> 0 <= x.
Proof.
  assert (Hr : rect 1 3 [[-5; 1; 2]]) by (split; [reflexivity|repeat constructor]).
  assert (H1 : (1 <= 1)%nat) by lia.
  exact (conj Hr (conj H1 (heatDissipationTimeStep_nonneg _ 1 3 (1 / 10) Hr H1))).
Defined.

(** C8.  For every [gamma], one step of an all-zero rectangular grid
    returns the same grid: every cell stays 0. *)
Theorem heatDissipationTimeStep_zero_fixed (g : grid) (rows cols : nat) (gamma : R)
    (Hr : rect rows cols g) (Hrows : (1 <= rows)%nat)
    (Hz : Forall (Forall (fun x => x = 0)) g) :
  heatDissipationTimeStep g gamma = Ok g.
Proof.
  destruct g as [|r0 g0].
  - destruct Hr as [Hl _]. simpl in Hl. lia.
  - assert (Hc : length r0 = cols) by (destruct Hr as [_ Hf]; by inversion Hf).
    assert (Hl : length (r0 :: g0) = rows) by apply Hr.
    cbn [heatDissipationTimeStep]. rewrite Hl, Hc. f_equal.
    unfold step_rows. apply fold_left_fixed. intros i.
    apply fold_left_fixed. intros j. by apply step_cell_zero.
Qed.

Lemma heatDissipationTimeStep_zero_fixed_witness :
  rect 2 2 [[0; 0]; [0; 0]] /\ (1 <= 2)%nat /\
  Forall (Forall (fun x => x = 0)) [[0; 0]; [0; 0]] /\
  heatDissipationTimeStep [[0; 0]; [0; 0]] 7 = Ok [[0; 0]; [0; 0]].
Proof.
  assert (Hr : rect 2 2 [[0; 0]; [0; 0]]) by (split; [reflexivity|repeat constructor]).
  assert (H1 : (1 <= 2)%nat) by lia.
  assert (Hz : Forall (Forall (fun x => x = 0)) [[0; 0]; [0; 0]]) by repeat constructor.
  exact (conj Hr (conj H1 (conj Hz (heatDissipationTimeStep_zero_fixed _ 2 2 7 Hr H1 Hz)))).
Defined.


(** ** Heat injection *)

Ltac solve_cells :=
  rewrite ?NoDup_cons, ?NoDup_nil, ?elem_of_cons, ?elem_of_nil, ?pair_equal_spec;
  lia.

Lemma addHeat_cells (rows cols : Z) (g : grid) r c heat (L : list (Z * Z)) i j :
  rect (Z.to_nat rows) (Z.to_nat cols) g ->
  (0 <= c < cols)%Z -> (0 <= r < rows)%Z ->
  ((i < Z.to_nat rows)%nat -> (j < Z.to_nat cols)%nat ->
   (Z.abs (Z.of_nat i - r) + Z.abs (Z.of_nat j - c) <= 1)%Z <->
   (Z.of_nat i, Z.of_nat j) ∈ L) ->
  cell (addHeat rows cols g c r heat) i j =
  if decide ((Z.of_nat i, Z.of_nat j) ∈ L)
  then (fun t => (t + heat)%R) <$> cell g i j else cell g i j.
Proof.
  intros Hr Hc Hrr HL. rewrite addHeat_spec by done.
  destruct (decide (i < Z.to_nat rows /\ j < Z.to_nat cols)%nat) as [[Hi Hj]|Hout].
  - apply if_decide_iff. auto.
  - rewrite (rect_cell_None _ _ g i j Hr) by lia. by do 2 case_decide.
Qed.

(** C5 (corrected).  For a rectangular [rows x cols] grid, injecting
    [heat] at row [r], column [c]: at an interior cell, adds [heat] to
    exactly the five distinct in-grid cells [(r, c)], [(r-1, c)],
    [(r+1, c)], [(r, c-1)], [(r, c+1)] and leaves every other cell
    unchanged; at a corner cell of a grid with at least 2 rows and 2
    columns, adds [heat] to exactly the cell and its two in-grid
    neighbours; when [(r, c)] is out of bounds the grid is unchanged. *)
Theorem addHeat_frame (rows cols : Z) (g : grid) (r c : Z) (heat : R)
    (Hr : rect (Z.to_nat rows) (Z.to_nat cols) g) :
  let g' := addHeat rows cols g c r heat in
  let add := fun t => (t + heat)%R in
  ((0 < r < rows - 1)%Z -> (0 < c < cols - 1)%Z ->
     let L := [(r, c); (r - 1, c); (r + 1, c); (r, c - 1); (r, c + 1)]%Z in
     NoDup L /\ Forall (fun '(y, x) => 0 <= y < rows /\ 0 <= x < cols)%Z L /\
     forall i j, cell g' i j =
       if decide ((Z.of_nat i, Z.of_nat j) ∈ L) then add <$> cell g i j
       else cell g i j) /\
  ((2 <= rows)%Z -> (2 <= cols)%Z ->
   (r = 0 \/ r = rows - 1)%Z -> (c = 0 \/ c = cols - 1)%Z ->
     let L := [(r, c); (if r =? 0 then 1 else r - 1, c);
               (r, if c =? 0 then 1 else c - 1)]%Z in
     NoDup L /\ Forall (fun '(y, x) => 0 <= y < rows /\ 0 <= x < cols)%Z L /\
     forall i j, cell g' i j =
       if decide ((Z.of_nat i, Z.of_nat j) ∈ L) then add <$> cell g i j
       else cell g i j) /\
  (~ (0 <= c < cols /\ 0 <= r < rows)%Z -> g' = g).
Proof.
  intros g' add. split; [|split].
  - intros Hrr Hcc L. split; [|split].
    + subst L. solve_cells.
    + subst L. repeat constructor; lia.
    + intros i j. subst g' L.
      apply addHeat_cells; [done|lia|lia|intros; solve_cells].
  - intros H2r H2c Hrr Hcc L. subst L.
    destruct (r =? 0)%Z eqn:Er, (c =? 0)%Z eqn:Ec;
      rewrite ?Z.eqb_eq, ?Z.eqb_neq in Er, Ec; cbv beta iota.
    all: split; [solve_cells|].
    all: split; [repeat constructor; lia|].
    all: intros i j; subst g';
      apply addHeat_cells; [done|lia|lia|intros; solve_cells].
  - intros Hout. subst g'. unfold addHeat.
    destruct ((0 <=? c) && (c <? cols) && (0 <=? r) && (r <? rows))%Z eqn:E;
      [|reflexivity].
    exfalso. rewrite !andb_true_iff, !Z.leb_le, !Z.ltb_lt in E. lia.
Qed.

Lemma addHeat_frame_witness :
  rect 3 3 [[0; 0; 0]; [0; 0; 0]; [0; 0; 0]] /\
  (let g' := addHeat 3 3 [[0; 0; 0]; [0; 0; 0]; [0; 0; 0]] 1 1 8 in
   let add := fun t => (t + 8)%R in
   ((0 < 1 < 3 - 1)%Z -> (0 < 1 < 3 - 1)%Z ->
     let L := [(1, 1); (1 - 1, 1); (1 + 1, 1); (1, 1 - 1); (1, 1 + 1)]%Z in
     NoDup L /\ Forall (fun '(y, x) => 0 <= y < 3 /\ 0 <= x < 3)%Z L /\
     forall i j, cell g' i j =
       if decide ((Z.of_nat i, Z.of_nat j) ∈ L)
       then add <$> cell [[0; 0; 0]; [0; 0; 0]; [0; 0; 0]] i j
       else cell [[0; 0; 0]; [0; 0; 0]; [0; 0; 0]] i j) /\
   ((2 <= 3)%Z -> (2 <= 3)%Z ->
    (1 = 0 \/ 1 = 3 - 1)%Z -> (1 = 0 \/ 1 = 3 - 1)%Z ->
     let L := [(1, 1); (if 1 =? 0 then 1 else 1 - 1, 1);
               (1, if 1 =? 0 then 1 else 1 - 1)]%Z in
     NoDup L /\ Forall (fun '(y, x) => 0 <= y < 3 /\ 0 <= x < 3)%Z L /\
     forall i j, cell g' i j =
       if decide ((Z.of_nat i, Z.of_nat j) ∈ L)
       then add <$> cell [[0; 0; 0]; [0; 0; 0]; [0; 0; 0]] i j
       else cell [[0; 0; 0]; [0; 0; 0]; [0; 0; 0]] i j) /\
   (~ (0 <= 1 < 3 /\ 0 <= 1 < 3)%Z ->
    g' = [[0; 0; 0]; [0; 0; 0]; [0; 0; 0]])).
Proof.
  assert (Hr : rect 3 3 [[0; 0; 0]; [0; 0; 0]; [0; 0; 0]])
    by (split; [reflexivity|repeat constructor]).
  exact (conj Hr (addHeat_frame 3 3 _ 1 1 8 Hr)).
Defined.

(** C5, counterexample: on a grid of one row and three columns, a corner
    cell has a single in-grid neighbour, so injecting at the corner
    [(0, 0)] cannot raise exactly three cells and leave the others
    unchanged. *)
Lemma addHeat_corner_one_row :
  ~ (forall (rows cols : Z) (g : grid) (r c : Z) (heat : R),
       rect (Z.to_nat rows) (Z.to_nat cols) g ->
       (r = 0 \/ r = rows - 1)%Z -> (c = 0 \/ c = cols - 1)%Z ->
       exists L : list (Z * Z), length L = 3%nat /\ NoDup L /\
         Forall (fun '(y, x) => 0 <= y < rows /\ 0 <= x < cols)%Z L /\
         forall i j, cell (addHeat rows cols g c r heat) i j =
           if decide ((Z.of_nat i, Z.of_nat j) ∈ L)
           then (fun t => (t + heat)%R) <$> cell g i j else cell g i j).
Proof.
  intros H.
  assert (Hr : rect (Z.to_nat 1) (Z.to_nat 3) [[0; 0; 0]])
    by (split; [reflexivity|repeat constructor]).
  destruct (H 1%Z 3%Z [[0; 0; 0]] 0%Z 0%Z 1%R Hr ltac:(lia) ltac:(lia))
    as (L & Hlen & Hnd & Hin & Hc).
  specialize (Hc 0%nat 2%nat).
  assert (Hnot : ((0, 2)%Z : Z * Z) ∉ L).
  { intros Hm. rewrite decide_True in Hc by exact Hm.
    vm_compute in Hc. injection Hc. lra. }
  destruct L as [|[y1 x1] [|[y2 x2] [|[y3 x3] [|]]]]; simpl in Hlen; try lia.
  rewrite !Forall_cons in Hin. simpl in Hin.
  rewrite !NoDup_cons, NoDup_nil, !elem_of_cons, !elem_of_nil, !pair_equal_spec in Hnd.
  rewrite !elem_of_cons, !elem_of_nil, !pair_equal_spec in Hnot.
  lia.
Qed.

(** ** Rendering *)

Definition uniform_grid (rows cols : nat) (t : R) : grid :=
  replicate rows (replicate cols t).

(** C3.  For a positive scale and a grid with at least one row, [render]
    fails exactly when [floor(W/scale)] plus one when [W mod scale] is
    nonzero differs from [cols], or the same count for [H] differs from
    [rows]; it fails only with a grid/target geometry error.  For every
    3x3 grid and a 10x10 target it succeeds at scale 4 and fails at
    scale 5 with the size mismatch. *)
Theorem drawHeatGrid_mismatch (W H scale : nat) (data : list R) (g : grid)
    (Hs : (1 <= scale)%nat) (Hg : g <> []) :
  ((exists e, drawHeatGrid W H data g scale = Err e) <->
   ((W / scale + (if W mod scale =? 0 then 0 else 1))%nat <> length (hd [] g) \/
    (H / scale + (if H mod scale =? 0 then 0 else 1))%nat <> length g)) /\
  (forall e, drawHeatGrid W H data g scale = Err e -> is_grid_target_mismatch e) /\
  (forall (g3 : grid) (d : list R), rect 3 3 g3 ->
     (exists d', drawHeatGrid 10 10 d g3 4 = Ok d') /\
     drawHeatGrid 10 10 d g3 5 = Err CanvasGridMismatch).
Proof.
  rewrite <- !totalCells_alt. split; [|split].
  - by apply drawHeatGrid_fails.
  - by apply drawHeatGrid_fails.
  - intros g3 d [Hl Hf]. destruct g3 as [|r0 g0]; [discriminate|].
    assert (Hc : length r0 = 3%nat) by (by inversion Hf).
    split.
    + destruct (drawHeatGrid 10 10 d (r0 :: g0) 4) as [d'|e] eqn:E; [eauto|].
      exfalso. destruct (drawHeatGrid_fails 10 10 4 d (r0 :: g0))
        as [[Hf' _] _]; [lia|done|].
      destruct (Hf' (ex_intro _ e E)) as [Hx|Hx]; cbn [hd] in Hx;
        rewrite ?Hc, ?Hl in Hx; vm_compute in Hx; lia.
    + cbn [drawHeatGrid]. rewrite Hl, Hc. reflexivity.
Qed.

Lemma drawHeatGrid_mismatch_witness :
  (1 <= 4)%nat /\ uniform_grid 3 3 0 <> [] /\
  ((exists e, drawHeatGrid 10 10 (createImageData 10 10) (uniform_grid 3 3 0) 4 = Err e) <->
   ((10 / 4 + (if 10 mod 4 =? 0 then 0 else 1))%nat <> length (hd [] (uniform_grid 3 3 0)) \/
    (10 / 4 + (if 10 mod 4 =? 0 then 0 else 1))%nat <> length (uniform_grid 3 3 0))) /\
  (forall e, drawHeatGrid 10 10 (createImageData 10 10) (uniform_grid 3 3 0) 4 = Err e ->
     is_grid_target_mismatch e) /\
  (forall (g3 : grid) (d : list R), rect 3 3 g3 ->
     (exists d', drawHeatGrid 10 10 d g3 4 = Ok d') /\
     drawHeatGrid 10 10 d g3 5 = Err CanvasGridMismatch).
Proof.
  assert (Hs : (1 <= 4)%nat) by lia.
  assert (Hg : uniform_grid 3 3 0 <> []) by discriminate.
  exact (conj Hs (conj Hg (drawHeatGrid_mismatch 10 10 4 _ _ Hs Hg))).
Defined.

(** C2 (code defect).  A uniform 3x3 grid of temperature 100 rendered on a
    fresh 10x10 target at scale 4 passes the size check (3 blocks of
    which the last is 2 pixels wide), but the remainder loop starts at
    row [fullCellsY*scale = 8], a pixel offset, instead of the cell index
    [fullCellsY = 2], so it never runs: every pixel in the last two
    columns or the last two rows keeps red value 0, while the full blocks
    get red 100. *)
Theorem drawHeatGrid_remainder_unwritten :
  exists d, drawHeatGrid 10 10 (createImageData 10 10) (uniform_grid 3 3 100) 4 = Ok d /\
    d !! 0%nat = Some 100 /\
    d !! (4 * (7 * 10 + 7))%nat = Some 100 /\
    forall x y, (x < 10)%nat -> (y < 10)%nat -> (8 <= x \/ 8 <= y)%nat ->
      d !! (4 * (y * 10 + x))%nat = Some 0.
Proof.
  eexists. split; [reflexivity|]. split; [|split].
  - vm_compute. reflexivity.
  - vm_compute. reflexivity.
  - intros x y Hx Hy Hxy.
    destruct x as [|[|[|[|[|[|[|[|[|[|x]]]]]]]]]]; try lia;
    destruct y as [|[|[|[|[|[|[|[|[|[|y]]]]]]]]]]; try lia;
    vm_compute; reflexivity.
Qed.

(** ** Initialisation *)

(** C7.  [initializeHeatGrid] fails if and only if [rows] is outside
    [1, 1080] or [cols] is outside [1, 1920], whatever the mode, and then
    with [InvalidDimensions]; in particular for [rows = 0], [rows = 1081],
    [cols = 0] and [cols = 1921]. *)
Theorem initializeHeatGrid_invalid (rows cols : Z) (method : init_method)
    (beta alpha : R) :
  ((exists e, initializeHeatGrid rows cols method beta alpha = Err e) <->
   (rows < 1 \/ 1080 < rows \/ cols < 1 \/ 1920 < cols)%Z) /\
  (forall e, initializeHeatGrid rows cols method beta alpha = Err e ->
     e = InvalidDimensions) /\
  initializeHeatGrid 0 cols method beta alpha = Err InvalidDimensions /\
  initializeHeatGrid 1081 cols method beta alpha = Err InvalidDimensions /\
  initializeHeatGrid rows 0 method beta alpha = Err InvalidDimensions /\
  initializeHeatGrid rows 1921 method beta alpha = Err InvalidDimensions.
Proof.
  assert (Hgen : forall r c : Z,
    ((exists e, initializeHeatGrid r c method beta alpha = Err e) <->
     (r < 1 \/ 1080 < r \/ c < 1 \/ 1920 < c)%Z) /\
    (forall e, initializeHeatGrid r c method beta alpha = Err e ->
       e = InvalidDimensions)).
  { intros r c. unfold initializeHeatGrid.
    destruct ((r <=? 0)%Z || (r >? 1080)%Z || (c <=? 0)%Z || (c >? 1920)%Z) eqn:E.
    - rewrite !orb_true_iff, !Z.gtb_ltb, !Z.leb_le, !Z.ltb_lt in E.
      split; [split; [intros _; lia|eauto]|]. by intros e [= <-].
    - rewrite !orb_false_iff, !Z.gtb_ltb, !Z.leb_gt, !Z.ltb_ge in E.
      split; [split; [intros [e He]; destruct method; discriminate|lia]|].
      intros e He. destruct method; discriminate. }
  assert (Hinst : forall r c : Z, (r < 1 \/ 1080 < r \/ c < 1 \/ 1920 < c)%Z ->
    initializeHeatGrid r c method beta alpha = Err InvalidDimensions).
  { intros r c Hrc. destruct (Hgen r c) as [[_ Hex] Herr].
    destruct (Hex Hrc) as [e He]. rewrite He. f_equal. by apply Herr. }
  destruct (Hgen rows cols) as [H1 H2].
  split; [done|split; [done|]].
  repeat split; apply Hinst; lia.
Qed.




(** C10, counterexample.  In double precision the field is not nowhere
    zero: with [beta = 1000] and [alpha = 255] on a 3x3 grid, the corner
    [(0, 0)] has exponent [-1000 * 2 = -2000] and the edge cell [(0, 1)]
    has [-1000]; [Math.exp] underflows to [+0] at both, so both cells
    hold exactly 0 while the centre holds 255.  Every intermediate value
    here ([-2000], [-1000], [0], [1], [255]) is a double, so the rounding
    of the products is the identity. *)
Lemma initializeHeatGrid_f64_underflow :
  exists g, initializeHeatGrid_f64 (fun x => x) Math_exp 3 3 Exp 1000 255 = Ok g /\
    cell g 0 0 = Some 0 /\ cell g 0 1 = Some 0 /\ cell g 1 1 = Some 255.
Proof.
  destruct (initializeHeatGrid_f64_cells (fun x => x) Math_exp 3 3 1000 255
              ltac:(lia) ltac:(lia)) as (g & E & _ & Hcell).
  exists g. split; [exact E|].
  rewrite !Hcell, !decide_True by (vm_compute; lia).
  assert (E00 : sqDist (3 / 2) (3 / 2) 0 0 = 2%Z) by reflexivity.
  assert (E01 : sqDist (3 / 2) (3 / 2) 0 1 = 1%Z) by reflexivity.
  assert (E11 : sqDist (3 / 2) (3 / 2) 1 1 = 0%Z) by reflexivity.
  rewrite E00, E01, E11. unfold Math_exp, u_threshold.
  split; [|split].
  - destruct (Rlt_dec _ _) as [_|Hn]; [f_equal; ring|exfalso; apply Hn; simpl; lra].
  - destruct (Rlt_dec _ _) as [_|Hn]; [f_equal; ring|exfalso; apply Hn; simpl; lra].
  - destruct (Rlt_dec _ _) as [Hl|_]; [exfalso; simpl in Hl; lra|].
    replace (exp _) with 1 by (rewrite <- exp_0; f_equal; simpl; ring).
    f_equal. ring.
Qed.

Section RadialRange.

(** [fl] is a rounding to doubles (round to nearest is monotone and
    keeps 0) and [math_exp] a [Math.exp] that returns 1 at 0 (ECMAScript
    requires it), a value in [0, 1] at every argument [<= 0], and [+0]
    below the underflow threshold. *)
Variables fl math_exp : R -> R.
Hypothesis fl_mono : forall x y, x <= y -> fl x <= fl y.
Hypothesis fl_0 : fl 0 = 0.
Hypothesis math_exp_0 : math_exp 0 = 1.
Hypothesis math_exp_range : forall x, x <= 0 -> 0 <= math_exp x <= 1.
Hypothesis math_exp_underflow : forall x, x < u_threshold -> math_exp x = 0.

(** C10 (corrected).  For [1 <= rows <= 1080], [1 <= cols <= 1920],
    [beta >= 0] and a double [alpha >= 0], every cell of the [exp]-mode
    grid, evaluated in double precision, lies in [0, alpha]; the centre
    cell [(rows/2, cols/2)] holds exactly [alpha]; and a cell whose
    rounded exponent [-beta * sqDist] is below the underflow threshold
    holds exactly 0, so cells are not all strictly positive. *)
Theorem initializeHeatGrid_f64_range (rows cols : Z) (beta alpha : R)
    (Hr : (1 <= rows <= 1080)%Z) (Hc : (1 <= cols <= 1920)%Z)
    (Hb : 0 <= beta) (Ha : 0 <= alpha) (Hal : fl alpha = alpha) :
  exists g, initializeHeatGrid_f64 fl math_exp rows cols Exp beta alpha = Ok g /\
    (forall i j x, cell g i j = Some x -> 0 <= x <= alpha) /\
    cell g (Z.to_nat (rows / 2)) (Z.to_nat (cols / 2)) = Some alpha /\
    (forall i j, (i < Z.to_nat rows)%nat -> (j < Z.to_nat cols)%nat ->
       fl (- beta * IZR (sqDist (cols / 2) (rows / 2) i j)) < u_threshold ->
       cell g i j = Some 0).
Proof.
  destruct (initializeHeatGrid_f64_cells fl math_exp rows cols beta alpha Hr Hc)
    as (g & E & _ & Hcell).
  exists g. split; [done|]. split; [|split].
  - intros i j x Hx.
    rewrite Hcell in Hx. case_decide; [|discriminate]. injection Hx as <-.
    set (d := sqDist _ _ i j).
    assert (Hd : 0 <= IZR d)
      by (apply IZR_le; subst d; unfold sqDist; nia).
    assert (Hneg : fl (- beta * IZR d) <= 0)
      by (rewrite <- fl_0; apply fl_mono; nra).
    destruct (math_exp_range _ Hneg) as [H0 H1].
    split.
    + rewrite <- fl_0. apply fl_mono. nra.
    + rewrite <- Hal at 2. apply fl_mono. nra.
  - rewrite Hcell, decide_True by (split; apply Nat2Z.inj_lt;
      rewrite Z2Nat.id by (apply Z.div_pos; lia); rewrite Z2Nat.id by lia;
      apply Z.div_lt_upper_bound; lia).
    assert (Hz : sqDist (cols / 2) (rows / 2) (Z.to_nat (rows / 2)) (Z.to_nat (cols / 2)) = 0%Z).
    { unfold sqDist. rewrite !Z2Nat.id by (apply Z.div_pos; lia). ring. }
    rewrite Hz. replace (- beta * IZR 0) with 0 by (simpl; ring).
    rewrite fl_0, math_exp_0, Rmult_1_r, Hal. reflexivity.
  - intros i j Hi Hj Hu.
    rewrite Hcell, decide_True by lia.
    rewrite (math_exp_underflow _ Hu), Rmult_0_r, fl_0. reflexivity.
Qed.

End RadialRange.

Lemma initializeHeatGrid_f64_range_witness :
  (forall x y : R, x <= y -> x <= y) /\ Math_exp 0 = 1 /\
  (forall x, x <= 0 -> 0 <= Math_exp x <= 1) /\
  (forall x, x < u_threshold -> Math_exp x = 0) /\
  (1 <= 3 <= 1080)%Z /\ (1 <= 3 <= 1920)%Z /\ 0 <= 1000 /\ 0 <= 255 /\
  exists g, initializeHeatGrid_f64 (fun x => x) Math_exp 3 3 Exp 1000 255 = Ok g /\
    (forall i j x, cell g i j = Some x -> 0 <= x <= 255) /\
    cell g (Z.to_nat (3 / 2)) (Z.to_nat (3 / 2)) = Some 255 /\
    (forall i j, (i < Z.to_nat 3)%nat -> (j < Z.to_nat 3)%nat ->
       - 1000 * IZR (sqDist (3 / 2) (3 / 2) i j) < u_threshold ->
       cell g i j = Some 0).
Proof.
  assert (Hm : forall x y : R, x <= y -> x <= y) by (intros; assumption).
  assert (H0 : (fun x : R => x) 0 = 0) by reflexivity.
  assert (He0 : Math_exp 0 = 1).
  { unfold Math_exp, u_threshold.
    destruct (Rlt_dec _ _) as [Hl|_]; [exfalso; lra|apply exp_0]. }
  assert (Her : forall x, x <= 0 -> 0 <= Math_exp x <= 1).
  { intros x Hx. unfold Math_exp.
    destruct (Rlt_dec _ _); [lra|].
    split; [left; apply exp_pos|rewrite <- exp_0; apply exp_le_mono, Hx]. }
  assert (Heu : forall x, x < u_threshold -> Math_exp x = 0).
  { intros x Hx. unfold Math_exp. by destruct (Rlt_dec _ _). }
  assert (Hr : (1 <= 3 <= 1080)%Z) by lia.
  assert (Hc : (1 <= 3 <= 1920)%Z) by lia.
  assert (Hb : 0 <= 1000) by lra.
  assert (Ha : 0 <= 255) by lra.
  assert (Hal : (fun x : R => x) 255 = 255) by reflexivity.
  exact (conj Hm (conj He0 (conj Her (conj Heu (conj Hr (conj Hc (conj Hb (conj Ha
    (initializeHeatGrid_f64_range (fun x => x) Math_exp Hm H0 He0 Her Heu
       3 3 1000 255 Hr Hc Hb Ha Hal))))))))).
Defined.

(** ** Pointer position to grid cell *)

(** C9.  For every [px], [py] and [scale], [canvasXYToGridXY] returns the
    floors of [(px-1)/scale] and [(py-1)/scale], unclamped (they may be
    negative or beyond the grid); in particular the pixel [(1, 1)] maps to
    cell [(0, 0)] for every scale. *)
Theorem canvasXYToGridXY_floor (px py scale : R) :
  let '(col, row) := canvasXYToGridXY px py scale in
  (IZR col <= (px - 1) / scale < IZR col + 1) /\
  (IZR row <= (py - 1) / scale < IZR row + 1) /\
  canvasXYToGridXY 1 1 scale = (0%Z, 0%Z).
Proof.
  unfold canvasXYToGridXY.
  pose proof (base_Int_part ((px - 1) / scale)).
  pose proof (base_Int_part ((py - 1) / scale)).
  split; [lra|split; [lra|]].
  replace ((1 - 1) / scale) with 0 by (unfold Rdiv; ring).
  replace (Int_part 0) with 0%Z; [reflexivity|].
  apply Int_part_spec. simpl. lra.
Qed.

End Claims.


Section MoreFacts.
Local Open Scope R_scope.

Lemma Forall_cells (P : R -> Prop) (g : grid) :
  Forall (Forall P) g <-> forall i j x, cell g i j = Some x -> P x.
Proof.
  rewrite Forall_lookup. unfold cell. split.
  - intros H i j x Hx. destruct (g !! i) as [r|] eqn:E; simpl in Hx; [|discriminate].
    specialize (H i r E). rewrite Forall_lookup in H. eauto.
  - intros H i r E. rewrite Forall_lookup. intros j x Hx.
    apply (H i j x). by rewrite E.
Qed.

Lemma addHeat_out (rows cols : Z) (g : grid) gridX gridY heat :
  ~ (0 <= gridX < cols /\ 0 <= gridY < rows)%Z ->
  addHeat rows cols g gridX gridY heat = g.
Proof.
  intros Hout. unfold addHeat.
  destruct ((0 <=? gridX) && (gridX <? cols) && (0 <=? gridY) && (gridY <? rows))%Z
    eqn:E; [|reflexivity].
  exfalso. rewrite !andb_true_iff, !Z.leb_le, !Z.ltb_lt in E. lia.
Qed.

Lemma rect_addHeat rows cols (g : grid) gridX gridY heat :
  rect (Z.to_nat rows) (Z.to_nat cols) g ->
  rect (Z.to_nat rows) (Z.to_nat cols) (addHeat rows cols g gridX gridY heat).
Proof.
  intros Hr. unfold addHeat.
  repeat match goal with
  | |- context [if ?b then _ else _] => destruct b
  end; repeat apply rect_upd; done.
Qed.

(** Two injections at the same cell add up. *)
Lemma zero_grid_fixed (g : grid) (rows cols : nat) (gamma : R) :
  rect rows cols g -> (1 <= rows)%nat -> Forall (Forall (fun x => x = 0)) g ->
  heatDissipationTimeStep g gamma = Ok g.
Proof.
  intros Hr Hrows Hz. destruct g as [|r0 g0].
  - destruct Hr as [Hl _]. simpl in Hl. lia.
  - assert (Hc : length r0 = cols) by (destruct Hr as [_ Hf]; by inversion Hf).
    assert (Hl : length (r0 :: g0) = rows) by apply Hr.
    cbn [heatDissipationTimeStep]. rewrite Hl, Hc. f_equal.
    unfold step_rows. apply fold_left_fixed. intros i.
    apply fold_left_fixed. intros j. by apply step_cell_zero.
Qed.

Lemma rd_nonneg (g : grid) i j :
  Forall (Forall (fun x => 0 <= x)) g -> 0 <= rd g i j.
Proof.
  intros Hn. rewrite Forall_cells in Hn. unfold rd.
  destruct (cell g i j) eqn:E; simpl; [eauto|lra].
Qed.

Lemma rect_replicate rows cols (t : R) :
  rect rows cols (replicate rows (replicate cols t)).
Proof.
  split; [apply length_replicate|]. apply Forall_replicate, length_replicate.
Qed.

Lemma cell_replicate rows cols (t : R) i j :
  (i < rows)%nat -> (j < cols)%nat ->
  cell (replicate rows (replicate cols t)) i j = Some t.
Proof.
  intros Hi Hj. unfold cell. rewrite lookup_replicate_2 by done. simpl.
  by rewrite lookup_replicate_2.
Qed.

Lemma scaleInputToScale_pos k scale :
  scaleInputToScale k = Some scale -> (1 <= scale)%nat.
Proof.
  intros H. destruct k as [|p|p]; try discriminate.
  repeat (destruct p as [p|p|]; try discriminate); injection H as <-; lia.
Qed.

End MoreFacts.

Section MoreFacts2.
Local Open Scope R_scope.

(** A click adds [heat] to the in-grid cells at Manhattan distance at most
    one from it, when it falls inside the grid. *)
Lemma cell_addHeat (rows cols : Z) (g : grid) gridX gridY heat i j :
  rect (Z.to_nat rows) (Z.to_nat cols) g ->
  cell (addHeat rows cols g gridX gridY heat) i j =
  if decide ((0 <= gridX < cols /\ 0 <= gridY < rows) /\
             Z.abs (Z.of_nat i - gridY) + Z.abs (Z.of_nat j - gridX) <= 1)%Z
  then (fun t => t + heat) <$> cell g i j else cell g i j.
Proof.
  intros Hr.
  destruct (decide (0 <= gridX < cols /\ 0 <= gridY < rows)%Z) as [[Hx Hy]|Hout].
  - rewrite addHeat_spec by done. apply if_decide_iff. tauto.
  - rewrite addHeat_out by done. case_decide; [tauto|done].
Qed.

Lemma Int_part_in_range (r : R) (n : Z) :
  (0 <= Int_part r < n)%Z <-> 0 <= r < IZR n.
Proof.
  pose proof (base_Int_part r) as [Hb1 Hb2]. split.
  - intros [H0 H1]. apply IZR_le in H0. apply Z.le_succ_l, IZR_le in H1.
    rewrite succ_IZR in H1. lra.
  - intros [H0 H1]. split.
    + apply Z.lt_succ_r, lt_IZR. rewrite succ_IZR. simpl. lra.
    + apply lt_IZR. lra.
Qed.

Lemma drawHeatGrid_not_larger (W H scale : nat) (data : list R) (g : grid) :
  (length (hd [] g) <= W)%nat -> (length g <= H)%nat ->
  drawHeatGrid W H data g scale <> Err GridLargerThanCanvas.
Proof.
  intros HW HH. destruct g as [|r0 g0]; [discriminate|]. cbn [drawHeatGrid hd] in *.
  destruct (_ || _) eqn:E.
  - apply orb_true_iff in E. rewrite !Nat.ltb_lt in E. lia.
  - destruct (negb _); discriminate.
Qed.

Lemma totalCells_exact (w scale : nat) :
  (1 <= scale)%nat -> totalCells w scale = (w / scale)%nat <-> (w mod scale = 0)%nat.
Proof.
  intros Hs. rewrite totalCells_alt.
  destruct (Nat.eqb_spec (w mod scale) 0); lia.
Qed.

(** The invariant of the mouse-hold intervals: [P] lists the intervals
    started by [mousedown] so far; all are distinct and still active, and
    whenever the button is up the shared [intervalID] names none of them. *)
Definition press_inv (s : mouse_state) (P : list nat) : Prop :=
  NoDup P /\
  (forall k, k ∈ P -> k ∈ timers s /\ (k < nextTimer s)%nat) /\
  (holding s = false -> forall k, k ∈ P -> intervalID s <> Some k).

Lemma existsb_eqb k (l : list nat) : existsb (Nat.eqb k) l = true <-> k ∈ l.
Proof.
  rewrite existsb_exists, list_elem_of_In. split.
  - intros (k' & Hin & E). apply Nat.eqb_eq in E. by subst.
  - intros Hin. exists k. split; [done|]. apply Nat.eqb_refl.
Qed.

Lemma elem_of_clearInterval id (ts : list nat) k :
  k ∈ ts -> id <> Some k -> k ∈ clearInterval id ts.
Proof.
  intros Hk Hid. destruct id as [j|]; simpl; [|done].
  rewrite list_elem_of_In, filter_In. rewrite list_elem_of_In in Hk.
  split; [done|]. apply negb_true_iff, Nat.eqb_neq. congruence.
Qed.

Lemma press_inv_step s P ev :
  press_inv s P ->
  press_inv (fst (mouse_step s ev))
    (match ev with MouseDown => nextTimer s :: P | _ => P end).
Proof.
  intros (Hnd & Hact & Hid). unfold press_inv; destruct ev as [| | |j]; simpl; unfold interval, set_holding; simpl.
  - split; [|split].
    + apply NoDup_cons. split; [|done]. intros Hin. apply Hact in Hin. lia.
    + intros k Hk. rewrite elem_of_cons in Hk. rewrite elem_of_cons.
      destruct Hk as [->|Hk]; [auto with lia|]. apply Hact in Hk. intuition lia.
    + discriminate.
  - split; [done|split].
    + intros k Hk. apply Hact in Hk. rewrite elem_of_cons. intuition lia.
    + intros _ k Hk [= E]. apply Hact in Hk. lia.
  - split; [done|split].
    + intros k Hk. apply Hact in Hk. rewrite elem_of_cons. intuition lia.
    + intros _ k Hk [= E]. apply Hact in Hk. lia.
  - destruct (existsb (Nat.eqb j) (timers s)); simpl; [|tauto].
    destruct (holding s) eqn:Eh; simpl; [split; [done|split; [done|intros Hf; congruence]]|].
    split; [done|split; [|done]].
    intros k Hk. destruct (Hact k Hk) as [Ht Hn]. split; [|done].
    apply elem_of_clearInterval; [done|]. by apply Hid.
Qed.

End MoreFacts2.

Section Extras.
Local Open Scope R_scope.

(** X1.  For [1 <= rows <= 1080] and [1 <= cols <= 1920], the [zeros]
    mode of [initializeHeatGrid] returns a [rows x cols] grid whose every
    cell is 0, and one diffusion step returns that grid unchanged for
    every [gamma]. *)
Theorem initializeHeatGrid_zeros_steady (rows cols : Z) (beta alpha gamma : R)
    (Hr : (1 <= rows <= 1080)%Z) (Hc : (1 <= cols <= 1920)%Z) :
  exists g, initializeHeatGrid rows cols Zeros beta alpha = Ok g /\
    rect (Z.to_nat rows) (Z.to_nat cols) g /\
    (forall i j x, cell g i j = Some x -> x = 0) /\
    heatDissipationTimeStep g gamma = Ok g.
Proof.
  unfold initializeHeatGrid.
  replace ((rows <=? 0)%Z || (rows >? 1080)%Z || (cols <=? 0)%Z || (cols >? 1920)%Z)
    with false by (symmetry; rewrite !orb_false_iff, Z.leb_gt, Z.gtb_ltb,
                   Z.ltb_ge, Z.leb_gt, Z.gtb_ltb, Z.ltb_ge; lia).
  eexists. split; [reflexivity|].
  assert (Hz : Forall (Forall (fun x => x = 0))
                 (replicate (Z.to_nat rows) (replicate (Z.to_nat cols) 0)))
    by (apply Forall_replicate, Forall_replicate; reflexivity).
  split; [apply rect_replicate|]. split; [by apply Forall_cells|].
  apply (zero_grid_fixed _ (Z.to_nat rows) (Z.to_nat cols));
    [apply rect_replicate|lia|done].
Qed.

Lemma initializeHeatGrid_zeros_steady_witness :
  (1 <= 2 <= 1080)%Z /\ (1 <= 3 <= 1920)%Z /\
  exists g, initializeHeatGrid 2 3 Zeros (1 / 10000) 255 = Ok g /\
    rect (Z.to_nat 2) (Z.to_nat 3) g /\
    (forall i j x, cell g i j = Some x -> x = 0) /\
    heatDissipationTimeStep g (1 / 4) = Ok g.
Proof.
  assert (Hr : (1 <= 2 <= 1080)%Z) by lia.
  assert (Hc : (1 <= 3 <= 1920)%Z) by lia.
  exact (conj Hr (conj Hc (initializeHeatGrid_zeros_steady 2 3 _ _ _ Hr Hc))).
Defined.

(** X2.  The [exp] mode is mirror-symmetric about the centre row
    [rows/2] and the centre column [cols/2]: two in-grid rows [i], [i']
    with [i + i' = 2*(rows/2)] hold the same values, and likewise for
    columns.  For an odd [rows] this pairs row [i] with row [rows-1-i]; for
    an even [rows] the centre is the lower of the two middle rows and row
    0 has no mirror row. *)
Theorem initializeHeatGrid_exp_mirror (rows cols : Z) (beta alpha : R)
    (Hr : (1 <= rows <= 1080)%Z) (Hc : (1 <= cols <= 1920)%Z) :
  exists g, initializeHeatGrid rows cols Exp beta alpha = Ok g /\
    (forall i i' j, (i < Z.to_nat rows)%nat -> (i' < Z.to_nat rows)%nat ->
       (Z.of_nat i + Z.of_nat i' = 2 * (rows / 2))%Z -> cell g i j = cell g i' j) /\
    (forall i j j', (j < Z.to_nat cols)%nat -> (j' < Z.to_nat cols)%nat ->
       (Z.of_nat j + Z.of_nat j' = 2 * (cols / 2))%Z -> cell g i j = cell g i j').
Proof.
  destruct (initializeHeatGrid_exp_cells rows cols beta alpha Hr Hc)
    as (g & E & _ & Hcell).
  exists g. split; [done|]. split.
  - intros i i' j Hi Hi' Hsum. rewrite !Hcell.
    destruct (decide (j < Z.to_nat cols)%nat) as [Hj|Hj].
    + rewrite !decide_True by lia.
      replace (sqDist (cols / 2) (rows / 2) i' j)
        with (sqDist (cols / 2) (rows / 2) i j); [reflexivity|]. unfold sqDist.
      replace (Z.of_nat i' - rows / 2)%Z with (- (Z.of_nat i - rows / 2))%Z by lia.
      ring.
    + rewrite !decide_False by lia. reflexivity.
  - intros i j j' Hj Hj' Hsum. rewrite !Hcell.
    destruct (decide (i < Z.to_nat rows)%nat) as [Hi|Hi].
    + rewrite !decide_True by lia.
      replace (sqDist (cols / 2) (rows / 2) i j')
        with (sqDist (cols / 2) (rows / 2) i j); [reflexivity|]. unfold sqDist.
      replace (Z.of_nat j' - cols / 2)%Z with (- (Z.of_nat j - cols / 2))%Z by lia.
      ring.
    + rewrite !decide_False by lia. reflexivity.
Qed.

Lemma initializeHeatGrid_exp_mirror_witness :
  (1 <= 5 <= 1080)%Z /\ (1 <= 4 <= 1920)%Z /\
  exists g, initializeHeatGrid 5 4 Exp (1 / 10000) 255 = Ok g /\
    (forall i i' j, (i < Z.to_nat 5)%nat -> (i' < Z.to_nat 5)%nat ->
       (Z.of_nat i + Z.of_nat i' = 2 * (5 / 2))%Z -> cell g i j = cell g i' j) /\
    (forall i j j', (j < Z.to_nat 4)%nat -> (j' < Z.to_nat 4)%nat ->
       (Z.of_nat j + Z.of_nat j' = 2 * (4 / 2))%Z -> cell g i j = cell g i j').
Proof.
  assert (Hr : (1 <= 5 <= 1080)%Z) by lia.
  assert (Hc : (1 <= 4 <= 1920)%Z) by lia.
  exact (conj Hr (conj Hc (initializeHeatGrid_exp_mirror 5 4 _ _ Hr Hc))).
Defined.

(** X3.  With [gamma <= 0], one step turns every rectangular grid of
    nonnegative temperatures (at least one row) into the all-zero grid of
    the same shape: the stencil value is never positive, and the clamp
    sets it to 0. *)
Theorem heatDissipationTimeStep_nonpos_gamma (g : grid) (rows cols : nat) (gamma : R)
    (Hr : rect rows cols g) (Hrows : (1 <= rows)%nat) (Hgam : gamma <= 0)
    (Hn : Forall (Forall (fun x => 0 <= x)) g) :
  heatDissipationTimeStep g gamma = Ok (replicate rows (replicate cols 0)).
Proof.
  destruct (step_spec g rows cols gamma Hr Hrows) as (g' & E & Hr' & Hv).
  rewrite E. f_equal.
  assert (Hn' : Forall (Forall (fun x => 0 <= x)) g').
  { apply Forall_cells. intros i j x Hx.
    destruct (decide (i < rows /\ j < cols)%nat) as [[Hi Hj]|Hout].
    2:{ rewrite (rect_cell_None rows cols g' i j Hr') in Hx by lia. discriminate. }
    assert (Hrd : rd g' i j = x) by (unfold rd; by rewrite Hx).
    rewrite <- Hrd, Hv by done. apply Rmax_l. }
  assert (Hif : forall (b : bool) r, 0 <= r -> 0 <= if b then r else 0)
    by (intros [] r Hr0; lra).
  apply (grid_eq_cells rows cols); [done|apply rect_replicate|].
  intros i j Hi Hj. rewrite cell_replicate by done.
  destruct (rect_cell rows cols g' i j Hr' Hi Hj) as [x Hx]. rewrite Hx. f_equal.
  assert (Hrd : rd g' i j = x) by (unfold rd; by rewrite Hx).
  rewrite <- Hrd, Hv by done. unfold in_place_value.
  apply Rmax_left.
  pose proof (Hif (1 <=? i)%nat _ (rd_nonneg g' (i - 1) j Hn')).
  pose proof (Hif (i + 1 <? rows)%nat _ (rd_nonneg g (i + 1) j Hn)).
  pose proof (Hif (1 <=? j)%nat _ (rd_nonneg g' i (j - 1) Hn')).
  pose proof (Hif (j + 1 <? cols)%nat _ (rd_nonneg g i (j + 1) Hn)).
  pose proof (rd_nonneg g i j Hn).
  match goal with
  | |- gamma * ?S - ?e <= 0 =>
    assert (HS : 0 <= S) by lra;
    assert (Hp : 0 <= (- gamma) * S) by (apply Rmult_le_pos; lra)
  end.
  lra.
Qed.

Lemma heatDissipationTimeStep_nonpos_gamma_witness :
  rect 2 2 [[1; 2]; [3; 4]] /\ (1 <= 2)%nat /\ - (1 / 2) <= 0 /\
  Forall (Forall (fun x => 0 <= x)) [[1; 2]; [3; 4]] /\
  heatDissipationTimeStep [[1; 2]; [3; 4]] (- (1 / 2)) =
    Ok (replicate 2 (replicate 2 0)).
Proof.
  assert (Hr : rect 2 2 [[1; 2]; [3; 4]]) by (split; [reflexivity|repeat constructor]).
  assert (H1 : (1 <= 2)%nat) by lia.
  assert (Hg : - (1 / 2) <= 0) by lra.
  assert (Hn : Forall (Forall (fun x => 0 <= x)) [[1; 2]; [3; 4]])
    by (repeat constructor; lra).
  exact (conj Hr (conj H1 (conj Hg (conj Hn
    (heatDissipationTimeStep_nonpos_gamma _ 2 2 _ Hr H1 Hg Hn))))).
Defined.

(** ** Heat injection and the mouse tick *)

Definition zeros3 : grid := [[0; 0; 0]; [0; 0; 0]; [0; 0; 0]].

(** X4.  For [heat >= 0], an injection keeps the grid's shape, and raises
    every cell by at least 0 and at most [heat] (no cell is incremented
    twice); hence it keeps a grid of nonnegative temperatures
    nonnegative. *)
Theorem addHeat_bounded_increase (rows cols : Z) (g : grid) (gridX gridY : Z)
    (heat : R) (Hr : rect (Z.to_nat rows) (Z.to_nat cols) g) (Hh : 0 <= heat) :
  let g' := addHeat rows cols g gridX gridY heat in
  rect (Z.to_nat rows) (Z.to_nat cols) g' /\
  (forall i j x, cell g i j = Some x ->
     exists x', cell g' i j = Some x' /\ x <= x' <= x + heat) /\
  (Forall (Forall (fun x => 0 <= x)) g -> Forall (Forall (fun x => 0 <= x)) g').
Proof.
  intros g'.
  assert (Hc : forall i j, cell g' i j = cell g i j \/
                           cell g' i j = (fun t => t + heat) <$> cell g i j).
  { intros i j. subst g'. rewrite cell_addHeat by done. case_decide; auto. }
  split; [by apply rect_addHeat|]. split.
  - intros i j x Hx. destruct (Hc i j) as [E|E]; rewrite E, Hx; simpl;
      eexists; (split; [reflexivity|lra]).
  - rewrite !Forall_cells. intros Hn i j x' Hx'.
    destruct (Hc i j) as [E|E]; rewrite E in Hx'; [eauto|].
    destruct (cell g i j) as [x|] eqn:Ex; simpl in Hx'; [|discriminate].
    injection Hx' as <-. specialize (Hn i j x Ex). lra.
Qed.

Lemma addHeat_bounded_increase_witness :
  rect (Z.to_nat 3) (Z.to_nat 3) zeros3 /\ 0 <= 8 /\
  (let g' := addHeat 3 3 zeros3 0 2 8 in
   rect (Z.to_nat 3) (Z.to_nat 3) g' /\
   (forall i j x, cell zeros3 i j = Some x ->
      exists x', cell g' i j = Some x' /\ x <= x' <= x + 8) /\
   (Forall (Forall (fun x => 0 <= x)) zeros3 ->
    Forall (Forall (fun x => 0 <= x)) g')).
Proof.
  assert (Hr : rect (Z.to_nat 3) (Z.to_nat 3) zeros3)
    by (split; [reflexivity|repeat constructor]).
  assert (Hh : 0 <= 8) by lra.
  exact (conj Hr (conj Hh (addHeat_bounded_increase 3 3 zeros3 0 2 8 Hr Hh))).
Defined.

(** X7.  For a positive [scale], a tick of the mouse-hold interval with
    the pointer at [(x, y)]: when [1 <= x < cols*scale + 1] and
    [1 <= y < rows*scale + 1], it adds [heatMultiplier *
    addedHeatOnMouseClick] around the in-grid cell [(gridY, gridX)] whose
    block of [scale] pixels, shifted by one, contains the pointer;
    otherwise (in particular on the first pixel row or column, [x < 1] or
    [y < 1], and right of or below the grid) the grid is unchanged. *)
Theorem mouseTick_spec (rows cols : Z) (scale heatMultiplier : R) (g : grid)
    (x y : R) (Hr : rect (Z.to_nat rows) (Z.to_nat cols) g) (Hs : 0 < scale) :
  let heat := heatMultiplier * addedHeatOnMouseClick in
  ((1 <= x < IZR cols * scale + 1) /\ (1 <= y < IZR rows * scale + 1) ->
   exists gridX gridY : Z,
     (0 <= gridX < cols)%Z /\ (0 <= gridY < rows)%Z /\
     IZR gridX * scale + 1 <= x < (IZR gridX + 1) * scale + 1 /\
     IZR gridY * scale + 1 <= y < (IZR gridY + 1) * scale + 1 /\
     forall i j, cell (mouseTick rows cols scale heatMultiplier g x y) i j =
       if decide (Z.abs (Z.of_nat i - gridY) + Z.abs (Z.of_nat j - gridX) <= 1)%Z
       then (fun t => t + heat) <$> cell g i j else cell g i j) /\
  (~ ((1 <= x < IZR cols * scale + 1) /\ (1 <= y < IZR rows * scale + 1)) ->
   mouseTick rows cols scale heatMultiplier g x y = g).
Proof.
  intros heat.
  assert (Hq : forall (p : R) (n : Z),
    (0 <= Int_part ((p - 1) / scale) < n)%Z <-> 1 <= p < IZR n * scale + 1).
  { intros p n. rewrite Int_part_in_range.
    assert (E : p - 1 = (p - 1) / scale * scale) by (field; lra).
    set (q := (p - 1) / scale) in *. split; intros [H1 H2]; split; nra. }
  assert (Hb : forall p : R,
    IZR (Int_part ((p - 1) / scale)) * scale + 1 <= p <
    (IZR (Int_part ((p - 1) / scale)) + 1) * scale + 1).
  { intros p. pose proof (base_Int_part ((p - 1) / scale)) as [Hb1 Hb2].
    assert (E : p - 1 = (p - 1) / scale * scale) by (field; lra).
    set (q := (p - 1) / scale) in *. set (k := IZR (Int_part q)) in *.
    split; nra. }
  unfold mouseTick, canvasXYToGridXY. cbv zeta. split.
  - intros [Hx Hy]. apply Hq in Hx, Hy.
    exists (Int_part ((x - 1) / scale)), (Int_part ((y - 1) / scale)).
    do 4 (split; [auto|]). intros i j. by apply addHeat_spec.
  - intros Hout. apply addHeat_out. rewrite !Hq. tauto.
Qed.

Lemma mouseTick_spec_witness :
  rect (Z.to_nat 3) (Z.to_nat 3) zeros3 /\ 0 < 10 /\
  (let heat := 1 * addedHeatOnMouseClick in
   ((1 <= 15 < IZR 3 * 10 + 1) /\ (1 <= 25 < IZR 3 * 10 + 1) ->
    exists gridX gridY : Z,
      (0 <= gridX < 3)%Z /\ (0 <= gridY < 3)%Z /\
      IZR gridX * 10 + 1 <= 15 < (IZR gridX + 1) * 10 + 1 /\
      IZR gridY * 10 + 1 <= 25 < (IZR gridY + 1) * 10 + 1 /\
      forall i j, cell (mouseTick 3 3 10 1 zeros3 15 25) i j =
        if decide (Z.abs (Z.of_nat i - gridY) + Z.abs (Z.of_nat j - gridX) <= 1)%Z
        then (fun t => t + heat) <$> cell zeros3 i j else cell zeros3 i j) /\
   (~ ((1 <= 15 < IZR 3 * 10 + 1) /\ (1 <= 25 < IZR 3 * 10 + 1)) ->
    mouseTick 3 3 10 1 zeros3 15 25 = zeros3)).
Proof.
  assert (Hr : rect (Z.to_nat 3) (Z.to_nat 3) zeros3)
    by (split; [reflexivity|repeat constructor]).
  assert (Hs : 0 < 10) by lra.
  exact (conj Hr (conj Hs (mouseTick_spec 3 3 10 1 zeros3 15 25 Hr Hs))).
Defined.

(** ** Rendering and the start-up sequence *)

(** X10.  At start-up and on reset, for a scale taken from
    [scaleInputToScale] and a canvas giving [1 <= floor(height/scale) <=
    1080] and [1 <= floor(width/scale) <= 1920], the grid is built
    ([floor(height/scale) x floor(width/scale)]), and the first frame of
    [animate] on a fresh buffer throws exactly when [scale] does not
    divide both canvas sizes, always with the size mismatch: the grid
    never counts the partial blocks that [drawHeatGrid] expects. *)
Theorem setupGrid_first_frame (k : Z) (scale width height : nat) (beta : Z)
    (gamma : R) (Hk : scaleInputToScale k = Some scale)
    (Hh : (1 <= height / scale <= 1080)%nat) (Hw : (1 <= width / scale <= 1920)%nat) :
  exists g, setupGrid width height scale beta = Ok g /\
    rect (height / scale) (width / scale) g /\
    ((exists e, animate width height scale gamma (createImageData width height) g
                = Err e) <->
     (width mod scale <> 0 \/ height mod scale <> 0)%nat) /\
    (forall e, animate width height scale gamma (createImageData width height) g
               = Err e -> e = CanvasGridMismatch).
Proof.
  pose proof (scaleInputToScale_pos k scale Hk) as Hs.
  unfold setupGrid.
  destruct (initializeHeatGrid_exp_cells (Z.of_nat (height / scale))
              (Z.of_nat (width / scale)) (IZR beta / 100000 * INR scale ^ 2) 255
              ltac:(lia) ltac:(lia)) as (g & E & Hrect & _).
  rewrite !Nat2Z.id in Hrect.
  exists g. split; [exact E|]. split; [done|].
  assert (Hg : g <> []) by (intros ->; destruct Hrect as [Hl _]; simpl in Hl; lia).
  destruct (drawHeatGrid_fails width height scale (createImageData width height) g Hs Hg)
    as [Hf Herr].
  assert (Hlen : length (hd [] g) = (width / scale)%nat /\ length g = (height / scale)%nat).
  { destruct g as [|r0 g0]; [done|]. destruct Hrect as [Hl Hf']. inversion Hf'.
    by split. }
  destruct Hlen as [Hl0 Hl].
  rewrite Hl0, Hl, !totalCells_exact in Hf by done.
  assert (Hstep : exists g', heatDissipationTimeStep g gamma = Ok g').
  { destruct g as [|r0 g0]; [done|]. eexists. reflexivity. }
  destruct Hstep as [g' Hstep].
  unfold animate. rewrite Hstep.
  destruct (drawHeatGrid width height (createImageData width height) g scale)
    as [d|e] eqn:Ed.
  - split.
    + split; [intros [e He]; discriminate|].
      intros Hmod. destruct (proj2 Hf Hmod) as [e He]. discriminate.
    + intros e He. discriminate.
  - split.
    + split; [intros _; apply Hf; eauto|eauto].
    + intros e' [= <-]. destruct (Herr e eq_refl) as [He|He]; [|done].
      subst e. exfalso.
      apply (drawHeatGrid_not_larger width height scale
               (createImageData width height) g); [| |done].
      * rewrite Hl0. pose proof (Nat.div_mod width scale ltac:(lia)). nia.
      * rewrite Hl. pose proof (Nat.div_mod height scale ltac:(lia)). nia.
Qed.

Lemma setupGrid_first_frame_witness :
  scaleInputToScale 3 = Some 5%nat /\
  (1 <= 52 / 5 <= 1080)%nat /\ (1 <= 40 / 5 <= 1920)%nat /\
  exists g, setupGrid 40 52 5 5 = Ok g /\
    rect (52 / 5) (40 / 5) g /\
    ((exists e, animate 40 52 5 (1 / 4) (createImageData 40 52) g = Err e) <->
     (40 mod 5 <> 0 \/ 52 mod 5 <> 0)%nat) /\
    (forall e, animate 40 52 5 (1 / 4) (createImageData 40 52) g = Err e ->
       e = CanvasGridMismatch).
Proof.
  assert (Hk : scaleInputToScale 3 = Some 5%nat) by reflexivity.
  assert (Hh : (1 <= 52 / 5 <= 1080)%nat) by (vm_compute; lia).
  assert (Hw : (1 <= 40 / 5 <= 1920)%nat) by (vm_compute; lia).
  exact (conj Hk (conj Hh (conj Hw
    (setupGrid_first_frame 3 5 40 52 5 (1 / 4) Hk Hh Hw)))).
Defined.

(** ** The mouse-hold interval *)

(** X11.  Intervals leak: every interval started by a [mousedown] stays
    active for good, because the callback clears the shared [intervalID],
    which after a [mouseup] or [mouseleave] names the interval that handler
    started.  After any sequence of events with [n] [mousedown]s there are
    at least [n] distinct active intervals, and while the button is held
    each of them injects heat every time it fires, so heat is injected
    [n] times per interval period instead of once. *)
Theorem mouse_press_intervals_leak (evs : list mouse_event) :
  let s := mouse_run mouse_init evs in
  exists P : list nat, NoDup P /\
    length P = length (List.filter
                 (fun ev => match ev with MouseDown => true | _ => false end) evs) /\
    forall k, k ∈ P -> k ∈ timers s /\
      (holding s = true -> mouse_step s (Fire k) = (s, true)).
Proof.
  assert (Hinv : exists P, press_inv (mouse_run mouse_init evs) P /\
    length P = length (List.filter
                 (fun ev => match ev with MouseDown => true | _ => false end) evs)).
  { induction evs as [|ev evs IH] using rev_ind.
    - exists []. split; [|done]. split; [constructor|split].
      + intros k Hk. by apply elem_of_nil in Hk.
      + intros _ k Hk. by apply elem_of_nil in Hk.
    - destruct IH as [P [HP Hl]].
      exists (match ev with MouseDown => nextTimer (mouse_run mouse_init evs) :: P
                          | _ => P end).
      unfold mouse_run in *. rewrite fold_left_app. cbn [fold_left].
      split; [by apply press_inv_step|].
      rewrite List.filter_app, length_app, <- Hl. destruct ev; simpl; lia. }
  intros s. destruct Hinv as (P & (Hnd & Hact & _) & Hl).
  exists P. split; [done|]. split; [done|].
  intros k Hk. destruct (Hact k Hk) as [Ht _]. split; [done|].
  intros Hh. unfold mouse_step. apply existsb_eqb in Ht.
  subst s. by rewrite Ht, Hh.
Qed.

End Extras.
